(** * plugin-support.h: bulk memory operations, alpha blending, counters

    A shallow embedding of the inline functions of [src/plugin-support.h]
    and the properties the design document states about them.

    Conventions of the embedding:
    - a [uint8_t] is a [Z] in [0, 256); a store into a [uint8_t] reduces
      modulo [2^8] ([u8]);
    - a [size_t] or [uint64_t] is a [Z] in [0, 2^64); arithmetic that can
      wrap is reduced modulo [2^64] ([usize], [u64]);
    - a byte array a pointer parameter points to is a [list Z]; distinct
      parameters are distinct lists (the regions do not overlap);
    - an access outside the array is undefined behaviour in C: the model
      returns [None] there. *)

From Equations Require Import Equations.
From stdpp Require Import base option list numbers relations.
From Stdlib Require Import ZArith Lia.

Local Open Scope Z_scope.

(** ** Machine integers *)

Definition UINT8_MAX : Z := 255.
Definition SIZE_MAX : Z := 2 ^ 64 - 1.

(** Conversion to [uint8_t]. *)
Definition u8 (z : Z) : Z := z mod 2 ^ 8.

(** [size_t] arithmetic. *)
Definition usize (z : Z) : Z := z mod 2 ^ 64.

(** [uint64_t] arithmetic. *)
Definition u64 (z : Z) : Z := z mod 2 ^ 64.

Definition is_byte (b : Z) : Prop := 0 <= b <= UINT8_MAX.

#[global] Instance is_byte_dec b : Decision (is_byte b).
Proof. unfold is_byte. apply _. Defined.

(** ** Byte arrays *)

(** An array of [uint8_t] that fits the address space. *)
Definition is_buffer (m : list Z) : Prop :=
  Forall is_byte m /\ Z.of_nat (length m) <= SIZE_MAX.

#[global] Instance is_buffer_dec m : Decision (is_buffer m).
Proof. unfold is_buffer. apply _. Defined.

(** [m[i]] as an rvalue. *)
Definition rd (m : list Z) (i : Z) : option Z :=
  if bool_decide (0 <= i) then m !! Z.to_nat i else None.

(** [m[i] = v] for a [uint8_t] array: the value is converted on the store. *)
Definition wr (m : list Z) (i : Z) (v : Z) : option (list Z) :=
  if bool_decide (0 <= i < Z.of_nat (length m))
  then Some (<[Z.to_nat i := u8 v]> m)
  else None.

(** The [n] bytes at [m + off]. *)
Definition load_bytes (m : list Z) (off n : Z) : option (list Z) :=
  if bool_decide (0 <= off /\ 0 <= n /\ off + n <= Z.of_nat (length m))
  then Some (take (Z.to_nat n) (drop (Z.to_nat off) m))
  else None.

(** Overwrite the bytes at [m + off] with [bs]. *)
Definition store_bytes (m : list Z) (off : Z) (bs : list Z) : option (list Z) :=
  if bool_decide (0 <= off /\ off + Z.of_nat (length bs) <= Z.of_nat (length m))
  then Some (take (Z.to_nat off) m ++ bs
               ++ drop (Z.to_nat off + length bs)%nat m)
  else None.

(** ** Logging levels (lines 50-61) *)

Definition LOG_ERROR : Z := 3.
Definition LOG_WARNING : Z := 4.
Definition LOG_INFO : Z := 6.
Definition LOG_DEBUG : Z := 7.

(** ** Generic alpha blending (lines 215-224) *)

(** [(d * (255 - a) + s * a) / 255], evaluated in [int] after the integer
    promotions; [/] truncates. *)
Definition blend_expr (d s a : Z) : Z :=
  Z.quot (d * (255 - a) + s * a) 255.

(** One statement [dst[k] = (dst[k] * (255 - a) + src[k] * a) / 255;]. *)
Definition blend_store (dst src : list Z) (a k : Z) : option (list Z) :=
  d ← rd dst k;
  s ← rd src k;
  wr dst k (blend_expr d s a).

(** The body of the loop for pixel [i]; index arithmetic is in [size_t]. *)
Definition blend_pixel (dst src alpha : list Z) (i : Z) : option (list Z) :=
  a ← rd alpha i;
  dst ← blend_store dst src a (usize (usize (i * 4) + 0));
  dst ← blend_store dst src a (usize (usize (i * 4) + 1));
  dst ← blend_store dst src a (usize (usize (i * 4) + 2));
  blend_store dst src a (usize (usize (i * 4) + 3)).

(** [for (; i < count; i++) { ... }].  Under the guard [i < count] the
    increment cannot wrap. *)
Equations? blend_scalar_from (dst src alpha : list Z) (count i : Z)
  : option (list Z) by wf (Z.to_nat (count - i)) lt :=
  blend_scalar_from dst src alpha count i with decide (i < count) := {
    | left _ =>
        match blend_pixel dst src alpha i with
        | Some dst' => blend_scalar_from dst' src alpha count (i + 1)
        | None => None
        end
    | right _ => Some dst }.
Proof. lia. Qed.

Definition obs_blend_alpha_generic (dst src alpha : list Z) (count : Z)
  : option (list Z) :=
  blend_scalar_from dst src alpha count 0.

(** The closed form of the loop.  [blend_byte src alpha n k d] is what byte
    [k] of the destination holds, from its initial value [d], once the
    first [n] bytes have been blended; the alpha of byte [k] is that of
    pixel [k / 4]. *)
Definition blend_byte (src alpha : list Z) (n : Z) (k : nat) (d : Z) : Z :=
  if bool_decide (Z.of_nat k < n) then
    match src !! k, alpha !! (k / 4)%nat with
    | Some s, Some a => blend_expr d s a
    | _, _ => d
    end
  else d.

Definition blend_bytes (dst src alpha : list Z) (n : Z) : list Z :=
  imap (blend_byte src alpha n) dst.

Definition blend_image (dst src alpha : list Z) (count : Z) : list Z :=
  blend_bytes dst src alpha (4 * count).

(** ** libc block operations

    [memcpy] and [memset] belong to the C library; they are modelled by
    their ISO C contract on non-overlapping arrays. *)

(** [memcpy(dst + d, src + s, n)]. *)
Definition memcpy (dst : list Z) (d : Z) (src : list Z) (s n : Z)
  : option (list Z) :=
  bs ← load_bytes src s n;
  store_bytes dst d bs.

(** [memset(dst + d, value, n)]: the value is converted to
    [unsigned char]. *)
Definition memset (dst : list Z) (d value n : Z) : option (list Z) :=
  if bool_decide (0 <= n)
  then store_bytes dst d (replicate (Z.to_nat n) (u8 value))
  else None.

(** ** NEON intrinsics used by the header ([arm_neon.h])

    A [uint8x16_t] is the list of its 16 lanes, lane 0 first; a
    [uint16x8_t] the list of its 8 lanes. *)

Record uint8x16x4_t := Build_uint8x16x4 { val : nat -> list Z }.

Definition vld1q_u8 (m : list Z) (off : Z) : option (list Z) :=
  load_bytes m off 16.

Definition vst1q_u8 (m : list Z) (off : Z) (v : list Z) : option (list Z) :=
  store_bytes m off v.

Definition vdupq_n_u8 (x : Z) : list Z := replicate 16 x.

Definition vdupq_laneq_u8 (v : list Z) (lane : nat) : list Z :=
  replicate 16 (nth lane v 0).

Definition vget_low_u8 (v : list Z) : list Z := take 8 v.
Definition vget_high_u8 (v : list Z) : list Z := drop 8 v.

(** Widening multiply: 8-bit lanes to 16-bit lanes. *)
Definition vmull_u8 (a b : list Z) : list Z :=
  zip_with (fun x y => (x * y) mod 2 ^ 16) a b.

(** Saturating narrow: 16-bit lanes to 8-bit lanes. *)
Definition vqmovn_u16 (v : list Z) : list Z :=
  (fun x => Z.min x UINT8_MAX) <$> v.

Definition vcombine_u8 (lo hi : list Z) : list Z := lo ++ hi.

(** Four consecutive 16-byte vectors, not interleaved. *)
Definition vld1q_u8_x4 (m : list Z) (off : Z) : option uint8x16x4_t :=
  bs ← load_bytes m off 64;
  Some (Build_uint8x16x4 (fun k => take 16 (drop (16 * k) bs))).

Definition vst1q_u8_x4 (m : list Z) (off : Z) (data : uint8x16x4_t)
  : option (list Z) :=
  store_bytes m off (val data 0 ++ val data 1 ++ val data 2 ++ val data 3)%nat.

(** ** [obs_memcpy_neon] (lines 120-142) *)

(** The [while (size >= 64)] loop and the [if (size > 0) memcpy] after it;
    [d] and [s] are the offsets of the moving pointers. *)
Equations? memcpy_neon_chunks (dst : list Z) (d : Z) (src : list Z) (s size : Z)
  : option (list Z) by wf (Z.to_nat size) lt :=
  memcpy_neon_chunks dst d src s size with decide (64 <= size) := {
    | left _ =>
        match vld1q_u8_x4 src s with
        | Some data =>
            match vst1q_u8_x4 dst d data with
            | Some dst' =>
                memcpy_neon_chunks dst' (d + 64) src (s + 64) (size - 64)
            | None => None
            end
        | None => None
        end
    | right _ =>
        if bool_decide (0 < size) then memcpy dst d src s size else Some dst }.
Proof. lia. Qed.

Definition obs_memcpy_neon (dst src : list Z) (size : Z) : option (list Z) :=
  if bool_decide (64 <= size)
  then memcpy_neon_chunks dst 0 src 0 size
  else memcpy dst 0 src 0 size.

(** The naive byte-wise copy of the design document:
    [for (i = 0; i < n; i++) dst[i] = src[i];]. *)
Fixpoint bytewise_copy_from (n : nat) (dst src : list Z) (i : Z)
  : option (list Z) :=
  match n with
  | O => Some dst
  | S n' =>
      b ← rd src i;
      dst' ← wr dst i b;
      bytewise_copy_from n' dst' src (i + 1)
  end.

Definition bytewise_copy (dst src : list Z) (n : Z) : option (list Z) :=
  if bool_decide (0 <= n) then bytewise_copy_from (Z.to_nat n) dst src 0
  else None.

(** ** [obs_memset_neon] (lines 144-164) *)

(** The four stores of one iteration. *)
Definition memset_neon_chunk (dst : list Z) (d : Z) (v : list Z)
  : option (list Z) :=
  dst ← vst1q_u8 dst d v;
  dst ← vst1q_u8 dst (d + 16) v;
  dst ← vst1q_u8 dst (d + 32) v;
  vst1q_u8 dst (d + 48) v.

Equations? memset_neon_chunks (dst : list Z) (d : Z) (v : list Z)
  (value size : Z) : option (list Z) by wf (Z.to_nat size) lt :=
  memset_neon_chunks dst d v value size with decide (64 <= size) := {
    | left _ =>
        match memset_neon_chunk dst d v with
        | Some dst' => memset_neon_chunks dst' (d + 64) v value (size - 64)
        | None => None
        end
    | right _ =>
        if bool_decide (0 < size) then memset dst d value size else Some dst }.
Proof. lia. Qed.

Definition obs_memset_neon (dst : list Z) (value size : Z) : option (list Z) :=
  if bool_decide (64 <= size)
  then memset_neon_chunks dst 0 (vdupq_n_u8 (u8 value)) value size
  else memset dst 0 value size.

(** ** [obs_blend_alpha_neon] (lines 167-205) *)

(** The body of the 16-pixel loop at pixel index [i]. *)
Definition blend_neon_group (dst src alpha : list Z) (i : Z)
  : option (list Z) :=
  src_data ← vld1q_u8 src (usize (i * 4));
  dst_data ← vld1q_u8 dst (usize (i * 4));
  alpha_data ← vld1q_u8 alpha i;
  let alpha_expanded :=
    Build_uint8x16x4 (fun k => vdupq_laneq_u8 alpha_data k) in
  let blend_lo :=
    vmull_u8 (vget_low_u8 src_data) (vget_low_u8 (val alpha_expanded 0)) in
  let blend_hi :=
    vmull_u8 (vget_high_u8 src_data) (vget_high_u8 (val alpha_expanded 0)) in
  let result := vcombine_u8 (vqmovn_u16 blend_lo) (vqmovn_u16 blend_hi) in
  vst1q_u8 dst (usize (i * 4)) result.

(** [for (; i + 16 <= count; i += 16) { ... }] followed by the scalar loop
    for the remaining pixels.  [i + 16] is a [size_t] sum.  When it wraps,
    [i > SIZE_MAX - 16] and the 16 alpha bytes loaded at [alpha + i] end
    past the largest possible array: undefined behaviour. *)
Equations? blend_neon_from (dst src alpha : list Z) (count i : Z)
  : option (list Z) by wf (Z.to_nat (count - i)) lt :=
  blend_neon_from dst src alpha count i
    with decide (usize (i + 16) <= count) := {
    | left _ with decide (i < usize (i + 16)) := {
        | left _ =>
            match blend_neon_group dst src alpha i with
            | Some dst' =>
                blend_neon_from dst' src alpha count (usize (i + 16))
            | None => None
            end
        | right _ => None }
    | right _ => blend_scalar_from dst src alpha count i }.
Proof. lia. Qed.

Definition obs_blend_alpha_neon (dst src alpha : list Z) (count : Z)
  : option (list Z) :=
  blend_neon_from dst src alpha count 0.

(** ** [obs_aligned_alloc] (lines 106-112) *)

Definition NULL : Z := 0.
Definition EINVAL : Z := 22.
Definition ENOMEM : Z := 12.
Definition SIZEOF_VOID_P : Z := 8.

Definition is_pow2 (n : Z) : Prop := 0 < n /\ 2 ^ Z.log2 n = n.

#[global] Instance is_pow2_dec n : Decision (is_pow2 n).
Proof. unfold is_pow2. apply _. Defined.

(** An alignment [posix_memalign] accepts. *)
Definition valid_alignment (alignment : Z) : Prop :=
  is_pow2 alignment /\ alignment mod SIZEOF_VOID_P = 0.

(** The platform's [posix_memalign(&ptr, alignment, size)] on a heap state:
    it takes the current value of [ptr] and gives back the status, the
    value of [ptr] afterwards and the new heap. *)
Class Allocator (heap : Type) :=
  posix_memalign : heap -> Z -> Z -> Z -> Z * Z * heap.

(** What POSIX promises of [posix_memalign]: [EINVAL] for an alignment that
    is not a power of two multiple of [sizeof(void * )], and on success an
    address that is a multiple of the alignment.  The outcome for a zero
    size is left to the implementation. *)
Class PosixAllocator (heap : Type) `{Allocator heap} : Prop := {
  memalign_einval h p alignment size :
    ~ valid_alignment alignment ->
    (posix_memalign h p alignment size).1.1 = EINVAL;
  memalign_aligned h p alignment size :
    (posix_memalign h p alignment size).1.1 = 0 ->
    (posix_memalign h p alignment size).1.2 mod alignment = 0
}.

Definition obs_aligned_alloc `{Allocator heap} (h : heap) (alignment size : Z)
  : Z * heap :=
  let ptr := NULL in
  let '(rc, ptr, h') := posix_memalign h ptr alignment size in
  if bool_decide (rc <> 0) then (NULL, h') else (ptr, h').

(** A conforming allocator to run the function on: it hands out addresses
    upwards from [brk] and, as glibc and Darwin do, serves a zero size as a
    minimal block. *)
Record bump_heap := Build_bump_heap { brk : Z; limit : Z }.

Definition align_up (p a : Z) : Z := (p + a - 1) / a * a.

#[global] Instance bump_allocator : Allocator bump_heap :=
  fun h p alignment size =>
    if bool_decide (valid_alignment alignment) then
      let addr := align_up (brk h) alignment in
      let n := Z.max size 1 in
      if bool_decide (addr + n <= limit h)
      then (0, addr, Build_bump_heap (addr + n) (limit h))
      else (ENOMEM, p, h)
    else (EINVAL, p, h).

Definition bump_heap0 : bump_heap := Build_bump_heap 4096 65536.

(** ** Statistics counter (lines 231-253) *)

Definition UINT64_MAX : Z := 2 ^ 64 - 1.

Record obs_atomic_counter_t := Build_counter { value : Z; updates : Z }.

Inductive field := Value | Updates.

#[global] Instance field_eq_dec : EqDecision field.
Proof. solve_decision. Defined.

(** The atomic operations of [stdatomic.h] the header applies to a field;
    each one takes effect at a single instant. *)
Inductive atomic_op :=
| atomic_store (f : field) (v : Z)
| atomic_fetch_add (f : field) (delta : Z).

Definition get_field (f : field) (c : obs_atomic_counter_t) : Z :=
  match f with Value => value c | Updates => updates c end.

Definition set_field (f : field) (v : Z) (c : obs_atomic_counter_t)
  : obs_atomic_counter_t :=
  match f with
  | Value => Build_counter v (updates c)
  | Updates => Build_counter (value c) v
  end.

Definition exec (c : obs_atomic_counter_t) (op : atomic_op)
  : obs_atomic_counter_t :=
  match op with
  | atomic_store f v => set_field f v c
  | atomic_fetch_add f delta => set_field f (u64 (get_field f c + delta)) c
  end.

Definition run (c : obs_atomic_counter_t) (ops : list atomic_op)
  : obs_atomic_counter_t :=
  foldl exec c ops.

(** The bodies of the functions, as the atomic operations they perform in
    program order. *)
Definition init_ops : list atomic_op :=
  [atomic_store Value 0; atomic_store Updates 0].

Definition increment_ops (delta : Z) : list atomic_op :=
  [atomic_fetch_add Value delta; atomic_fetch_add Updates 1].

Definition obs_atomic_counter_init (c : obs_atomic_counter_t)
  : obs_atomic_counter_t :=
  run c init_ops.

Definition obs_atomic_counter_increment (c : obs_atomic_counter_t) (delta : Z)
  : obs_atomic_counter_t :=
  run c (increment_ops delta).

(** [atomic_load] of a field. *)
Definition obs_atomic_counter_get (c : obs_atomic_counter_t) : Z := value c.

Definition obs_atomic_counter_get_updates (c : obs_atomic_counter_t) : Z :=
  updates c.

(** A sequence of calls of [obs_atomic_counter_increment]. *)
Definition increments (deltas : list Z) : list atomic_op :=
  mjoin (increment_ops <$> deltas).

Definition sum_deltas (deltas : list Z) : Z := foldr Z.add 0 deltas.

(** *** Threads

    The default memory order of the operations is sequentially consistent,
    so an execution of several threads is an interleaving of their atomic
    operations.  A pool holds, for each thread, the operations it still has
    to perform. *)
Definition pool : Type := list (list atomic_op).

Inductive step
  : obs_atomic_counter_t * pool -> obs_atomic_counter_t * pool -> Prop :=
| step_thread c before op rest after :
    step (c, before ++ (op :: rest) :: after)
         (exec c op, before ++ rest :: after).

Definition finished (p : pool) : Prop := Forall (fun t => t = []) p.

(** A thread that calls [obs_atomic_counter_increment(counter, 1)] [K]
    times. *)
Definition increment_thread (K : nat) : list atomic_op :=
  increments (replicate K 1).

(** What a list of operations adds to a field, and what the operations
    still in a pool add to it. *)
Definition added_by (f : field) (op : atomic_op) : Z :=
  match op with
  | atomic_fetch_add g delta => if decide (f = g) then delta else 0
  | atomic_store _ _ => 0
  end.

Definition added (f : field) (ops : list atomic_op) : Z :=
  foldr (fun op acc => added_by f op + acc) 0 ops.

Definition pending (f : field) (p : pool) : Z := added f (mjoin p).

(** An operation of [obs_atomic_counter_increment] with a [uint64_t]
    operand. *)
Definition is_add (op : atomic_op) : Prop :=
  match op with
  | atomic_fetch_add _ delta => 0 <= delta <= UINT64_MAX
  | atomic_store _ _ => False
  end.

(** A pool whose threads only increment. *)
Definition adds_only (p : pool) : Prop := Forall (Forall is_add) p.

(** The invariant of an execution that starts in [(c0, p0)]. *)
Definition conserved (c0 : obs_atomic_counter_t) (p0 : pool)
  (s : obs_atomic_counter_t * pool) : Prop :=
  adds_only s.2 /\
  forall f, 0 <= get_field f s.1 <= UINT64_MAX /\
            u64 (get_field f s.1 + pending f s.2)
            = u64 (get_field f c0 + pending f p0).

(** *** The closed form of the vectorized blend

    One lane of [vqmovn_u16(vmull_u8(s, a))]. *)
Definition neon_lane (s a : Z) : Z := Z.min ((s * a) mod 2 ^ 16) UINT8_MAX.

(** What byte [k] of the destination holds, from its initial value [d],
    once the 16-pixel loop has run [groups] times: an iteration stores 16
    bytes at the start of its 64-byte group, computed from the alpha of the
    first pixel of the group. *)
Definition neon_byte (src alpha : list Z) (groups : Z) (k : nat) (d : Z) : Z :=
  if bool_decide (Z.of_nat k < 64 * groups /\ Z.of_nat k mod 64 < 16) then
    match src !! k, alpha !! Z.to_nat (16 * (Z.of_nat k / 64)) with
    | Some s, Some a => neon_lane s a
    | _, _ => d
    end
  else d.

Definition neon_groups_image (dst src alpha : list Z) (groups : Z) : list Z :=
  imap (neon_byte src alpha groups) dst.

(** The alpha plane as the scalar loop entered at pixel [i] sees it: the
    pixels below [i] are not blended (alpha 0 keeps a pixel). *)
Definition alpha_from (i : Z) (alpha : list Z) : list Z :=
  replicate (Z.to_nat i) 0 ++ drop (Z.to_nat i) alpha.

(** The whole function: [count / 16] iterations of the 16-pixel loop, then
    the scalar loop from pixel [16 * (count / 16)]. *)
Definition neon_image (dst src alpha : list Z) (count : Z) : list Z :=
  blend_image (neon_groups_image dst src alpha (count / 16)) src
    (alpha_from (16 * (count / 16)) alpha) count.

(** *** Threads of increments by 1

    Such a thread is either between two calls of
    [obs_atomic_counter_increment] or inside one, after the addition to
    [value] and before the addition to [updates]. *)
Definition thread_shape (t : list atomic_op) : Prop :=
  exists k : nat,
    t = increment_thread k \/
    t = atomic_fetch_add Updates 1 :: increment_thread k.

(** The invariant of an execution of [T] threads that add [total] in all,
    when [total] fits a [uint64_t]. *)
Definition in_step (T : nat) (total : Z)
  (s : obs_atomic_counter_t * pool) : Prop :=
  length s.2 = T /\ Forall thread_shape s.2 /\
  0 <= value s.1 /\ 0 <= updates s.1 /\
  value s.1 + pending Value s.2 = total /\
  updates s.1 + pending Updates s.2 = total.

(** * Properties *)

(** ** Machine integers and arrays *)

Lemma u8_small z : is_byte z -> u8 z = z.
Proof. unfold is_byte, UINT8_MAX, u8. intros H. apply Z.mod_small. lia. Qed.

Lemma u8_is_byte z : is_byte (u8 z).
Proof.
  unfold is_byte, UINT8_MAX, u8.
  pose proof (Z.mod_pos_bound z (2 ^ 8)). lia.
Qed.

Lemma u8_land z : u8 z = Z.land z 255.
Proof. unfold u8. change 255 with (Z.ones 8). now rewrite Z.land_ones. Qed.

Lemma usize_small z : 0 <= z <= SIZE_MAX -> usize z = z.
Proof. unfold SIZE_MAX, usize. intros H. apply Z.mod_small. lia. Qed.

Lemma rd_lookup (m : list Z) i b :
  0 <= i -> m !! Z.to_nat i = Some b -> rd m i = Some b.
Proof. intros Hi Hb. unfold rd. now rewrite bool_decide_eq_true_2. Qed.

Lemma wr_insert (m : list Z) i v :
  0 <= i < Z.of_nat (length m) -> wr m i v = Some (<[Z.to_nat i := u8 v]> m).
Proof. intros Hi. unfold wr. now rewrite bool_decide_eq_true_2. Qed.

Lemma is_buffer_lookup (m : list Z) k b :
  is_buffer m -> m !! k = Some b -> is_byte b.
Proof.
  intros [Hall _] Hk. rewrite Forall_lookup in Hall. exact (Hall k b Hk).
Qed.

(** ** The blend expression *)

Lemma blend_expr_div d s a :
  is_byte d -> is_byte s -> is_byte a ->
  blend_expr d s a = (d * (255 - a) + s * a) / 255.
Proof.
  unfold is_byte, UINT8_MAX, blend_expr. intros Hd Hs Ha.
  apply Z.quot_div_nonneg; nia.
Qed.

Lemma blend_sum_range d s a :
  is_byte d -> is_byte s -> is_byte a ->
  0 <= d * (255 - a) + s * a <= 255 * 255.
Proof. unfold is_byte, UINT8_MAX. intros Hd Hs Ha. nia. Qed.

Lemma blend_expr_is_byte d s a :
  is_byte d -> is_byte s -> is_byte a -> is_byte (blend_expr d s a).
Proof.
  intros Hd Hs Ha. rewrite blend_expr_div by assumption.
  pose proof (blend_sum_range d s a Hd Hs Ha) as Hr.
  unfold is_byte, UINT8_MAX. split.
  - apply Z.div_pos; lia.
  - apply Z.div_le_upper_bound; lia.
Qed.

(** C8: for 8-bit [dst], [src] and [a] the sum [dst*(255-a) + src*a] is at
    most 255*255 = 65025 and its truncating quotient by 255 is at most 255,
    so the conversion to [uint8_t] changes nothing: the byte the scalar
    blend stores is the value of the formula. *)
Theorem blend_store_exact (d s a : Z) :
  is_byte d -> is_byte s -> is_byte a ->
  0 <= d * (255 - a) + s * a <= 255 * 255 /\
  255 * 255 = 65025 /\
  0 <= Z.quot (d * (255 - a) + s * a) 255 <= 255 /\
  u8 (blend_expr d s a) = Z.quot (d * (255 - a) + s * a) 255 /\
  forall (m : list Z) (k : Z),
    0 <= k < Z.of_nat (length m) ->
    wr m k (blend_expr d s a)
    = Some (<[Z.to_nat k := Z.quot (d * (255 - a) + s * a) 255]> m).
Proof.
  intros Hd Hs Ha.
  pose proof (blend_expr_is_byte d s a Hd Hs Ha) as Hb.
  split; [exact (blend_sum_range d s a Hd Hs Ha) |].
  split; [reflexivity |]. split; [exact Hb |].
  split; [now apply u8_small |].
  intros m k Hk. rewrite wr_insert by exact Hk. now rewrite u8_small.
Qed.

Lemma blend_store_exact_witness :
  0 <= 200 * (255 - 128) + 255 * 128 <= 255 * 255 /\
  255 * 255 = 65025 /\
  0 <= Z.quot (200 * (255 - 128) + 255 * 128) 255 <= 255 /\
  u8 (blend_expr 200 255 128) = Z.quot (200 * (255 - 128) + 255 * 128) 255 /\
  forall (m : list Z) (k : Z),
    0 <= k < Z.of_nat (length m) ->
    wr m k (blend_expr 200 255 128)
    = Some (<[Z.to_nat k := Z.quot (200 * (255 - 128) + 255 * 128) 255]> m).
Proof. apply (blend_store_exact 200 255 128); compute_done. Defined.

(** ** The scalar blend *)

Lemma length_blend_bytes dst src alpha n :
  length (blend_bytes dst src alpha n) = length dst.
Proof. unfold blend_bytes. apply length_imap. Qed.

Lemma lookup_blend_bytes dst src alpha n k :
  blend_bytes dst src alpha n !! k = blend_byte src alpha n k <$> dst !! k.
Proof. unfold blend_bytes. apply list_lookup_imap. Qed.

Lemma blend_bytes_0 dst src alpha : blend_bytes dst src alpha 0 = dst.
Proof.
  apply list_eq. intros k. rewrite lookup_blend_bytes.
  destruct (dst !! k) as [d|]; [| reflexivity]. simpl.
  unfold blend_byte. rewrite bool_decide_eq_false_2 by lia. reflexivity.
Qed.

(** One store moves the closed form forward by one byte. *)
Lemma blend_store_bytes dst src alpha k a d s :
  is_byte d -> is_byte s -> is_byte a ->
  0 <= k ->
  dst !! Z.to_nat k = Some d ->
  src !! Z.to_nat k = Some s ->
  alpha !! (Z.to_nat k / 4)%nat = Some a ->
  blend_store (blend_bytes dst src alpha k) src a k
  = Some (blend_bytes dst src alpha (k + 1)).
Proof.
  intros Hd Hs Ha Hk Hdst Hsrc Halpha.
  assert (Hcur : blend_bytes dst src alpha k !! Z.to_nat k = Some d).
  { rewrite lookup_blend_bytes, Hdst. simpl. unfold blend_byte.
    rewrite bool_decide_eq_false_2 by lia. reflexivity. }
  unfold blend_store.
  rewrite (rd_lookup _ _ _ Hk Hcur). simpl.
  rewrite (rd_lookup _ _ _ Hk Hsrc). simpl.
  apply lookup_lt_Some in Hcur as Hlt.
  rewrite wr_insert by lia. f_equal.
  rewrite u8_small by now apply blend_expr_is_byte.
  apply list_eq. intros j.
  destruct (decide (Z.to_nat k = j)) as [<- | Hne].
  - rewrite list_lookup_insert_eq by exact Hlt.
    rewrite lookup_blend_bytes, Hdst. simpl. unfold blend_byte.
    rewrite bool_decide_eq_true_2 by lia. now rewrite Hsrc, Halpha.
  - rewrite list_lookup_insert_ne by exact Hne.
    rewrite !lookup_blend_bytes. destruct (dst !! j) as [x|]; [| reflexivity].
    simpl. unfold blend_byte. f_equal.
    destruct (decide (Z.of_nat j < k)).
    + rewrite !bool_decide_eq_true_2 by lia. reflexivity.
    + rewrite !bool_decide_eq_false_2 by lia. reflexivity.
Qed.

Section ScalarBlend.
Variables dst src alpha : list Z.
Variable count : Z.
Hypothesis dst_buffer : is_buffer dst.
Hypothesis src_buffer : is_buffer src.
Hypothesis alpha_buffer : is_buffer alpha.
Hypothesis dst_size : 4 * count <= Z.of_nat (length dst).
Hypothesis src_size : 4 * count <= Z.of_nat (length src).
Hypothesis alpha_size : count <= Z.of_nat (length alpha).

Lemma channel_index i c :
  0 <= i < count -> 0 <= c < 4 ->
  usize (usize (i * 4) + c) = i * 4 + c /\
  (Z.to_nat (i * 4 + c) / 4)%nat = Z.to_nat i /\
  (Z.to_nat (i * 4 + c) < length dst)%nat /\
  (Z.to_nat (i * 4 + c) < length src)%nat.
Proof.
  intros Hi Hc. destruct dst_buffer as [_ Hmax].
  rewrite (usize_small (i * 4)) by lia.
  rewrite usize_small by lia.
  split; [reflexivity |]. split; [| lia].
  symmetry. apply (Nat.div_unique _ 4 _ (Z.to_nat c)); lia.
Qed.

Lemma blend_channel_step i c :
  0 <= i < count -> 0 <= c < 4 ->
  blend_store (blend_bytes dst src alpha (i * 4 + c)) src
    (default 0 (alpha !! Z.to_nat i)) (usize (usize (i * 4) + c))
  = Some (blend_bytes dst src alpha (i * 4 + c + 1)).
Proof.
  intros Hi Hc.
  destruct (channel_index i c Hi Hc) as (-> & Hq & Hd & Hs).
  destruct (lookup_lt_is_Some_2 dst _ Hd) as [d Hdk].
  destruct (lookup_lt_is_Some_2 src _ Hs) as [s Hsk].
  destruct (lookup_lt_is_Some_2 alpha (Z.to_nat i)) as [a Hai]; [lia |].
  rewrite Hai. simpl.
  apply (blend_store_bytes dst src alpha (i * 4 + c) a d s).
  - exact (is_buffer_lookup _ _ _ dst_buffer Hdk).
  - exact (is_buffer_lookup _ _ _ src_buffer Hsk).
  - exact (is_buffer_lookup _ _ _ alpha_buffer Hai).
  - lia.
  - exact Hdk.
  - exact Hsk.
  - now rewrite Hq.
Qed.

(** One iteration moves the closed form forward by one pixel. *)
Lemma blend_pixel_step i :
  0 <= i < count ->
  blend_pixel (blend_image dst src alpha i) src alpha i
  = Some (blend_image dst src alpha (i + 1)).
Proof.
  intros Hi. unfold blend_pixel, blend_image.
  destruct (lookup_lt_is_Some_2 alpha (Z.to_nat i)) as [a Hai]; [lia |].
  rewrite (rd_lookup _ _ _ (proj1 Hi) Hai). simpl.
  pose proof (blend_channel_step i 0 Hi ltac:(lia)) as H0.
  pose proof (blend_channel_step i 1 Hi ltac:(lia)) as H1.
  pose proof (blend_channel_step i 2 Hi ltac:(lia)) as H2.
  pose proof (blend_channel_step i 3 Hi ltac:(lia)) as H3.
  rewrite Hai in H0, H1, H2, H3. simpl in H0, H1, H2, H3.
  replace (4 * i) with (i * 4 + 0) by lia. rewrite H0. simpl.
  replace (i * 4 + 0 + 1) with (i * 4 + 1) by lia. rewrite H1. simpl.
  replace (i * 4 + 1 + 1) with (i * 4 + 2) by lia. rewrite H2. simpl.
  replace (i * 4 + 2 + 1) with (i * 4 + 3) by lia. rewrite H3.
  do 2 f_equal. lia.
Qed.

(** The loop invariant: entered at [i] on the closed form for [i] pixels,
    the loop ends on the closed form for [count] pixels. *)
Lemma blend_scalar_from_image i :
  0 <= i <= count ->
  blend_scalar_from (blend_image dst src alpha i) src alpha count i
  = Some (blend_image dst src alpha count).
Proof.
  intros Hi. remember (Z.to_nat (count - i)) as n eqn:Hn.
  revert i Hi Hn. induction n as [| n IH]; intros i Hi Hn.
  - simp blend_scalar_from. destruct (decide (i < count)); [lia |].
    simpl. do 2 f_equal. lia.
  - simp blend_scalar_from. destruct (decide (i < count)); [| lia].
    simpl. rewrite blend_pixel_step by lia. apply IH; lia.
Qed.

Lemma obs_blend_alpha_generic_image :
  0 <= count ->
  obs_blend_alpha_generic dst src alpha count
  = Some (blend_image dst src alpha count).
Proof.
  intros Hc. unfold obs_blend_alpha_generic.
  rewrite <- (blend_bytes_0 dst src alpha) at 1.
  exact (blend_scalar_from_image 0 ltac:(lia)).
Qed.

Lemma lookup_blend_image i c d s a :
  0 <= i < count -> 0 <= c < 4 ->
  dst !! Z.to_nat (i * 4 + c) = Some d ->
  src !! Z.to_nat (i * 4 + c) = Some s ->
  alpha !! Z.to_nat i = Some a ->
  blend_image dst src alpha count !! Z.to_nat (i * 4 + c)
  = Some (blend_expr d s a).
Proof.
  intros Hi Hc Hd Hs Ha. unfold blend_image.
  rewrite lookup_blend_bytes, Hd. simpl. unfold blend_byte.
  destruct (channel_index i c Hi Hc) as (_ & Hq & _).
  rewrite bool_decide_eq_true_2 by lia. now rewrite Hs, Hq, Ha.
Qed.
End ScalarBlend.

Lemma blend_expr_alpha_0 d s : blend_expr d s 0 = d.
Proof.
  unfold blend_expr. replace (d * (255 - 0) + s * 0) with (d * 255) by lia.
  apply Z.quot_mul. lia.
Qed.

(** C1: for every pixel [i < count] and channel [c], the scalar blend sets
    [dst[i*4+c]] to [(dst[i*4+c] * (255 - alpha[i]) + src[i*4+c] * alpha[i])
    / 255] with truncating division, whatever [count] and the contents of
    the arrays, as long as the arrays are large enough. *)
Theorem obs_blend_alpha_generic_formula (dst src alpha : list Z) (count : Z) :
  is_buffer dst -> is_buffer src -> is_buffer alpha ->
  0 <= count ->
  4 * count <= Z.of_nat (length dst) ->
  4 * count <= Z.of_nat (length src) ->
  count <= Z.of_nat (length alpha) ->
  exists dst',
    obs_blend_alpha_generic dst src alpha count = Some dst' /\
    forall i c d s a,
      0 <= i < count -> 0 <= c < 4 ->
      dst !! Z.to_nat (i * 4 + c) = Some d ->
      src !! Z.to_nat (i * 4 + c) = Some s ->
      alpha !! Z.to_nat i = Some a ->
      dst' !! Z.to_nat (i * 4 + c)
      = Some (Z.quot (d * (255 - a) + s * a) 255).
Proof.
  intros Hdst Hsrc Halpha Hcount Hd Hs Ha.
  exists (blend_image dst src alpha count). split.
  - now apply obs_blend_alpha_generic_image.
  - intros i c d s a Hi Hc Hdk Hsk Hai.
    eapply lookup_blend_image; eassumption.
Qed.

Lemma obs_blend_alpha_generic_formula_witness :
  exists dst',
    obs_blend_alpha_generic [10; 20; 30; 40; 1; 2; 3; 4]
      [255; 0; 255; 0; 9; 9; 9; 9] [128; 0] 2 = Some dst' /\
    forall i c d s a,
      0 <= i < 2 -> 0 <= c < 4 ->
      [10; 20; 30; 40; 1; 2; 3; 4] !! Z.to_nat (i * 4 + c) = Some d ->
      [255; 0; 255; 0; 9; 9; 9; 9] !! Z.to_nat (i * 4 + c) = Some s ->
      [128; 0] !! Z.to_nat i = Some a ->
      dst' !! Z.to_nat (i * 4 + c)
      = Some (Z.quot (d * (255 - a) + s * a) 255).
Proof.
  apply (obs_blend_alpha_generic_formula [10; 20; 30; 40; 1; 2; 3; 4]
           [255; 0; 255; 0; 9; 9; 9; 9] [128; 0] 2);
    compute_done.
Defined.

(** C9: a pixel whose alpha is 0 keeps its four destination bytes. *)
Theorem obs_blend_alpha_generic_alpha_zero
  (dst src alpha : list Z) (count i : Z) :
  is_buffer dst -> is_buffer src -> is_buffer alpha ->
  4 * count <= Z.of_nat (length dst) ->
  4 * count <= Z.of_nat (length src) ->
  count <= Z.of_nat (length alpha) ->
  0 <= i < count ->
  alpha !! Z.to_nat i = Some 0 ->
  exists dst',
    obs_blend_alpha_generic dst src alpha count = Some dst' /\
    forall c, 0 <= c < 4 ->
      dst' !! Z.to_nat (i * 4 + c) = dst !! Z.to_nat (i * 4 + c).
Proof.
  intros Hdst Hsrc Halpha Hd Hs Ha Hi Hai.
  exists (blend_image dst src alpha count). split.
  - apply obs_blend_alpha_generic_image; trivial. lia.
  - intros c Hc.
    assert (Hdk : (Z.to_nat (i * 4 + c) < length dst)%nat) by lia.
    assert (Hsk : (Z.to_nat (i * 4 + c) < length src)%nat) by lia.
    destruct (lookup_lt_is_Some_2 dst _ Hdk) as [d Hdv].
    destruct (lookup_lt_is_Some_2 src _ Hsk) as [s Hsv].
    rewrite Hdv, <- (blend_expr_alpha_0 d s).
    eapply lookup_blend_image; eassumption.
Qed.

Lemma obs_blend_alpha_generic_alpha_zero_witness :
  exists dst',
    obs_blend_alpha_generic [10; 20; 30; 40; 1; 2; 3; 4]
      [255; 0; 255; 0; 9; 9; 9; 9] [128; 0] 2 = Some dst' /\
    forall c, 0 <= c < 4 ->
      dst' !! Z.to_nat (1 * 4 + c)
      = [10; 20; 30; 40; 1; 2; 3; 4] !! Z.to_nat (1 * 4 + c).
Proof.
  apply (obs_blend_alpha_generic_alpha_zero [10; 20; 30; 40; 1; 2; 3; 4]
           [255; 0; 255; 0; 9; 9; 9; 9] [128; 0] 2 1);
    compute_done.
Defined.

(** ** Block loads and stores *)

Lemma load_bytes_app (pre mid post : list Z) :
  load_bytes (pre ++ mid ++ post) (Z.of_nat (length pre)) (Z.of_nat (length mid))
  = Some mid.
Proof.
  unfold load_bytes. rewrite bool_decide_eq_true_2.
  - rewrite !Nat2Z.id, drop_app_length. f_equal. apply take_app_length.
  - rewrite !length_app. lia.
Qed.

Lemma store_bytes_app (pre mid post bs : list Z) :
  length bs = length mid ->
  store_bytes (pre ++ mid ++ post) (Z.of_nat (length pre)) bs
  = Some (pre ++ bs ++ post).
Proof.
  intros Hlen. unfold store_bytes. rewrite bool_decide_eq_true_2.
  - rewrite Nat2Z.id, take_app_length, Hlen. do 3 f_equal.
    rewrite drop_app_add'; [| reflexivity]. apply drop_app_length.
  - rewrite !length_app. lia.
Qed.

Lemma memcpy_app (pre old post spre new spost : list Z) :
  length old = length new ->
  memcpy (pre ++ old ++ post) (Z.of_nat (length pre))
    (spre ++ new ++ spost) (Z.of_nat (length spre)) (Z.of_nat (length new))
  = Some (pre ++ new ++ post).
Proof.
  intros Hlen. unfold memcpy. rewrite load_bytes_app. simpl.
  now apply store_bytes_app.
Qed.

Lemma memset_app (pre old post : list Z) v :
  memset (pre ++ old ++ post) (Z.of_nat (length pre)) v (Z.of_nat (length old))
  = Some (pre ++ replicate (length old) (u8 v) ++ post).
Proof.
  unfold memset. rewrite bool_decide_eq_true_2 by lia.
  rewrite Nat2Z.id. apply store_bytes_app. apply length_replicate.
Qed.

(** The first [n] elements split off a list that has them. *)
Lemma split_at (n : nat) (l : list Z) :
  (n <= length l)%nat ->
  exists front back, l = front ++ back /\ length front = n.
Proof.
  intros Hn. exists (take n l), (drop n l). split.
  - symmetry. apply take_drop.
  - now apply length_take_le.
Qed.

(** ** [obs_memcpy_neon] *)

Lemma x4_lanes (bs : list Z) :
  length bs = 64%nat ->
  take 16 (drop (16 * 0) bs) ++ take 16 (drop (16 * 1) bs)
    ++ take 16 (drop (16 * 2) bs) ++ take 16 (drop (16 * 3) bs) = bs.
Proof.
  intros Hlen. simpl drop.
  rewrite (take_ge (drop 48 bs)) by (rewrite length_drop; lia).
  change 48%nat with (32 + 16)%nat. rewrite <- (drop_drop bs 16 32), take_drop.
  change 32%nat with (16 + 16)%nat. rewrite <- (drop_drop bs 16 16), take_drop.
  apply take_drop.
Qed.

(** One iteration copies 64 bytes. *)
Lemma copy_chunk (pre old post spre new spost : list Z) :
  length new = 64%nat -> length old = 64%nat ->
  exists data,
    vld1q_u8_x4 (spre ++ new ++ spost) (Z.of_nat (length spre)) = Some data /\
    vst1q_u8_x4 (pre ++ old ++ post) (Z.of_nat (length pre)) data
    = Some (pre ++ new ++ post).
Proof.
  intros Hnew Hold. eexists. split.
  - unfold vld1q_u8_x4. change 64 with (Z.of_nat 64). rewrite <- Hnew.
    rewrite load_bytes_app. reflexivity.
  - unfold vst1q_u8_x4. cbn [val]. rewrite x4_lanes by exact Hnew.
    apply store_bytes_app. congruence.
Qed.

Lemma memcpy_neon_chunks_app (n : nat) :
  forall pre old post spre new spost : list Z,
    length new = n -> length old = n ->
    memcpy_neon_chunks (pre ++ old ++ post) (Z.of_nat (length pre))
      (spre ++ new ++ spost) (Z.of_nat (length spre)) (Z.of_nat n)
    = Some (pre ++ new ++ post).
Proof.
  induction n as [n IH] using lt_wf_ind.
  intros pre old post spre new spost Hnew Hold.
  simp memcpy_neon_chunks. destruct (decide (64 <= Z.of_nat n)) as [Hge | Hlt].
  - simpl.
    destruct (split_at 64 new) as (c & new' & -> & Hc); [lia |].
    destruct (split_at 64 old) as (o & old' & -> & Ho); [lia |].
    rewrite length_app in Hnew, Hold.
    rewrite <- !(assoc_L (++) _ _ spost), <- !(assoc_L (++) _ _ post).
    destruct (copy_chunk pre o (old' ++ post) spre c (new' ++ spost) Hc Ho)
      as (data & -> & ->).
    rewrite !(assoc_L (++) pre), !(assoc_L (++) spre).
    replace (Z.of_nat (length pre) + 64) with (Z.of_nat (length (pre ++ c)))
      by (rewrite length_app; lia).
    replace (Z.of_nat (length spre) + 64) with (Z.of_nat (length (spre ++ c)))
      by (rewrite length_app; lia).
    replace (Z.of_nat n - 64) with (Z.of_nat (n - 64)) by lia.
    apply IH; lia.
  - simpl. destruct (bool_decide_reflect (0 < Z.of_nat n)).
    + rewrite <- Hnew. apply memcpy_app. congruence.
    + destruct new; [| simpl in Hnew; lia].
      destruct old; [| simpl in Hold; lia]. reflexivity.
Qed.

Lemma obs_memcpy_neon_nat (dst src : list Z) (m : nat) :
  (m <= length dst)%nat -> (m <= length src)%nat ->
  obs_memcpy_neon dst src (Z.of_nat m) = Some (take m src ++ drop m dst).
Proof.
  intros Hd Hs.
  destruct (split_at m dst) as (old & post & -> & Hold); [exact Hd |].
  destruct (split_at m src) as (new & spost & -> & Hnew); [exact Hs |].
  rewrite take_app_length', drop_app_length' by congruence.
  unfold obs_memcpy_neon. destruct (bool_decide (64 <= Z.of_nat m)).
  - exact (memcpy_neon_chunks_app m [] old post [] new spost Hnew Hold).
  - rewrite <- Hnew. apply (memcpy_app [] old post [] new spost). congruence.
Qed.

Lemma obs_memcpy_neon_closed (dst src : list Z) (n : Z) :
  0 <= n <= Z.of_nat (length dst) -> n <= Z.of_nat (length src) ->
  obs_memcpy_neon dst src n
  = Some (take (Z.to_nat n) src ++ drop (Z.to_nat n) dst).
Proof.
  intros Hd Hs. rewrite <- (Z2Nat.id n) at 1 by lia.
  apply obs_memcpy_neon_nat; lia.
Qed.

(** The byte-wise loop, entered at index [length pre]. *)
Lemma bytewise_copy_from_app (new : list Z) :
  forall pre old post spre spost : list Z,
    Forall is_byte new ->
    length old = length new -> length spre = length pre ->
    bytewise_copy_from (length new) (pre ++ old ++ post)
      (spre ++ new ++ spost) (Z.of_nat (length pre))
    = Some (pre ++ new ++ post).
Proof.
  induction new as [| b new IH]; intros pre old post spre spost Hb Hold Hpre.
  - destruct old; [reflexivity | discriminate].
  - destruct old as [| o old]; [discriminate |].
    inversion Hb as [| ? ? Hb0 Hb']; subst. simpl.
    assert (Hrd : rd (spre ++ b :: new ++ spost) (Z.of_nat (length pre)) = Some b).
    { apply rd_lookup; [lia |]. rewrite Nat2Z.id, <- Hpre.
      apply list_lookup_middle. reflexivity. }
    rewrite Hrd. simpl.
    rewrite wr_insert by (rewrite length_app; simpl; lia).
    simpl. rewrite Nat2Z.id, u8_small by exact Hb0.
    rewrite insert_app_r_alt, Nat.sub_diag by lia. simpl.
    replace (Z.of_nat (length pre) + 1) with (Z.of_nat (length (pre ++ [b])))
      by (rewrite length_app; simpl; lia).
    rewrite (cons_middle b pre (old ++ post)), (cons_middle b spre (new ++ spost)),
      (cons_middle b pre (new ++ post)).
    rewrite !(assoc_L (++) pre), !(assoc_L (++) spre).
    apply IH; [exact Hb' | simpl in Hold; lia | rewrite !length_app; simpl; lia].
Qed.

Lemma bytewise_copy_closed (dst src : list Z) (n : Z) :
  is_buffer src ->
  0 <= n <= Z.of_nat (length dst) -> n <= Z.of_nat (length src) ->
  bytewise_copy dst src n
  = Some (take (Z.to_nat n) src ++ drop (Z.to_nat n) dst).
Proof.
  intros [Hb _] Hd Hs.
  destruct (split_at (Z.to_nat n) dst) as (old & post & -> & Hold); [lia |].
  destruct (split_at (Z.to_nat n) src) as (new & spost & -> & Hnew); [lia |].
  rewrite take_app_length', drop_app_length' by congruence.
  unfold bytewise_copy. rewrite bool_decide_eq_true_2 by lia.
  rewrite <- Hnew. apply Forall_app in Hb as [Hb _].
  apply (bytewise_copy_from_app new [] old post [] spost); congruence.
Qed.

(** C3: whatever the byte count, [obs_memcpy_neon] (64-byte chunks, then the
    remainder) leaves the destination as the naive byte-wise copy does. *)
Theorem obs_memcpy_neon_bytewise (dst src : list Z) (n : Z) :
  is_buffer src ->
  0 <= n <= Z.of_nat (length dst) -> n <= Z.of_nat (length src) ->
  exists dst',
    obs_memcpy_neon dst src n = Some dst' /\
    bytewise_copy dst src n = Some dst'.
Proof.
  intros Hb Hd Hs. eexists. split.
  - now apply obs_memcpy_neon_closed.
  - now apply bytewise_copy_closed.
Qed.

Lemma obs_memcpy_neon_bytewise_witness :
  exists dst',
    obs_memcpy_neon (replicate 70 0) (Z.of_nat <$> seq 0 70) 67 = Some dst' /\
    bytewise_copy (replicate 70 0) (Z.of_nat <$> seq 0 70) 67 = Some dst'.
Proof.
  apply (obs_memcpy_neon_bytewise (replicate 70 0) (Z.of_nat <$> seq 0 70) 67);
    compute_done.
Defined.

(** ** [obs_memset_neon] *)

(** One iteration fills 64 bytes. *)
Lemma memset_neon_chunk_app (pre old post : list Z) (x : Z) :
  length old = 64%nat ->
  memset_neon_chunk (pre ++ old ++ post) (Z.of_nat (length pre))
    (vdupq_n_u8 x)
  = Some (pre ++ replicate 64 x ++ post).
Proof.
  intros Hold. remember (vdupq_n_u8 x) as v eqn:Ev.
  assert (Hv : length v = 16%nat) by (subst v; apply length_replicate).
  destruct (split_at 16 old) as (o1 & r1 & -> & H1); [lia |].
  rewrite length_app in Hold.
  destruct (split_at 16 r1) as (o2 & r2 & -> & H2); [lia |].
  rewrite length_app in Hold.
  destruct (split_at 16 r2) as (o3 & o4 & -> & H3); [lia |].
  rewrite length_app in Hold.
  unfold memset_neon_chunk, vst1q_u8.
  rewrite <- !(assoc_L (++) _ _ post).
  rewrite store_bytes_app by congruence. simpl.
  rewrite (assoc_L (++) pre v).
  replace (Z.of_nat (length pre) + 16) with (Z.of_nat (length (pre ++ v)))
    by (rewrite length_app; lia).
  rewrite store_bytes_app by congruence. simpl.
  rewrite (assoc_L (++) (pre ++ v) v).
  replace (Z.of_nat (length pre) + 32)
    with (Z.of_nat (length ((pre ++ v) ++ v)))
    by (rewrite !length_app; lia).
  rewrite store_bytes_app by congruence. simpl.
  rewrite (assoc_L (++) ((pre ++ v) ++ v) v).
  replace (Z.of_nat (length pre) + 48)
    with (Z.of_nat (length (((pre ++ v) ++ v) ++ v)))
    by (rewrite !length_app; lia).
  rewrite store_bytes_app by lia.
  f_equal. rewrite <- !(assoc_L (++)). subst v. reflexivity.
Qed.

Lemma memset_neon_chunks_app (n : nat) :
  forall (pre old post : list Z) (v : Z),
    length old = n ->
    memset_neon_chunks (pre ++ old ++ post) (Z.of_nat (length pre))
      (vdupq_n_u8 (u8 v)) v (Z.of_nat n)
    = Some (pre ++ replicate n (u8 v) ++ post).
Proof.
  induction n as [n IH] using lt_wf_ind. intros pre old post v Hold.
  simp memset_neon_chunks. destruct (decide (64 <= Z.of_nat n)) as [Hge | Hlt].
  - simpl.
    destruct (split_at 64 old) as (o & old' & -> & Ho); [lia |].
    rewrite length_app in Hold.
    rewrite <- (assoc_L (++) o old' post).
    rewrite memset_neon_chunk_app by exact Ho.
    rewrite (assoc_L (++) pre).
    replace (Z.of_nat (length pre) + 64)
      with (Z.of_nat (length (pre ++ replicate 64 (u8 v))))
      by (rewrite length_app, length_replicate; lia).
    replace (Z.of_nat n - 64) with (Z.of_nat (n - 64)) by lia.
    rewrite IH by lia.
    replace n with (64 + (n - 64))%nat at 2 by lia.
    rewrite replicate_add, <- !(assoc_L (++)). reflexivity.
  - simpl. destruct (bool_decide_reflect (0 < Z.of_nat n)).
    + rewrite <- Hold. apply memset_app.
    + destruct old; [| simpl in Hold; lia]. subst n. reflexivity.
Qed.

Lemma obs_memset_neon_nat (dst : list Z) (v : Z) (m : nat) :
  (m <= length dst)%nat ->
  obs_memset_neon dst v (Z.of_nat m)
  = Some (replicate m (u8 v) ++ drop m dst).
Proof.
  intros Hm.
  destruct (split_at m dst) as (old & post & -> & Hold); [exact Hm |].
  rewrite drop_app_length' by congruence. unfold obs_memset_neon.
  destruct (bool_decide (64 <= Z.of_nat m)).
  - exact (memset_neon_chunks_app m [] old post v Hold).
  - rewrite <- Hold. apply (memset_app [] old post).
Qed.

Lemma obs_memset_neon_closed (dst : list Z) (v n : Z) :
  0 <= n <= Z.of_nat (length dst) ->
  obs_memset_neon dst v n
  = Some (replicate (Z.to_nat n) (u8 v) ++ drop (Z.to_nat n) dst).
Proof.
  intros Hn. rewrite <- (Z2Nat.id n) at 1 by lia.
  apply obs_memset_neon_nat. lia.
Qed.

(** C4: after [obs_memset_neon(dst, v, N)] each of the first [N] bytes of the
    destination is the low 8 bits of [v]; the sizes 0, 1, 63, 64, 65 and
    4096 are instances. *)
Theorem obs_memset_neon_fills (dst : list Z) (v n : Z) :
  0 <= n <= Z.of_nat (length dst) ->
  exists dst',
    obs_memset_neon dst v n = Some dst' /\
    length dst' = length dst /\
    forall i, 0 <= i < n -> dst' !! Z.to_nat i = Some (Z.land v 255).
Proof.
  intros Hn. eexists. split; [now apply obs_memset_neon_closed |]. split.
  - rewrite length_app, length_replicate, length_drop. lia.
  - intros i Hi. rewrite lookup_app_l by (rewrite length_replicate; lia).
    rewrite <- u8_land. apply lookup_replicate_2. lia.
Qed.

Lemma obs_memset_neon_fills_witness :
  exists dst',
    obs_memset_neon (replicate 70 0) (-2) 65 = Some dst' /\
    length dst' = length (replicate 70 0) /\
    forall i, 0 <= i < 65 -> dst' !! Z.to_nat i = Some (Z.land (-2) 255).
Proof. apply (obs_memset_neon_fills (replicate 70 0) (-2) 65). compute_done. Defined.

(** The sizes the design document lists, on a destination of exactly that
    size. *)
Corollary obs_memset_neon_listed_sizes (v : Z) :
  Forall (fun n : nat =>
            forall dst : list Z, length dst = n ->
              obs_memset_neon dst v (Z.of_nat n) = Some (replicate n (u8 v)))
    [0; 1; 63; 64; 65; 4096]%nat.
Proof.
  apply Forall_forall. intros n _ dst Hlen.
  rewrite obs_memset_neon_nat by lia.
  rewrite drop_ge by lia. now rewrite app_nil_r.
Qed.

(** ** [obs_blend_alpha_neon] *)

(** Below one full group the vectorized function is the scalar loop. *)
Lemma obs_blend_alpha_neon_short (dst src alpha : list Z) (count : Z) :
  count < 16 ->
  obs_blend_alpha_neon dst src alpha count
  = obs_blend_alpha_generic dst src alpha count.
Proof.
  intros Hc. unfold obs_blend_alpha_neon, obs_blend_alpha_generic.
  simp blend_neon_from.
  destruct (decide (usize (0 + 16) <= count)) as [Hle | Hgt].
  - exfalso. pose proof (usize_small (0 + 16)) as H16.
    unfold SIZE_MAX in H16. lia.
  - reflexivity.
Qed.

(** What one 16-pixel iteration stores: 16 bytes, the saturated products of
    the first 16 source bytes with the alpha of the first pixel of the
    group.  The destination bytes it loaded do not enter the result. *)
Lemma blend_neon_group_stores (dst src alpha : list Z) (i : Z) :
  forall src_data dst_data alpha_data,
    vld1q_u8 src (usize (i * 4)) = Some src_data ->
    vld1q_u8 dst (usize (i * 4)) = Some dst_data ->
    vld1q_u8 alpha i = Some alpha_data ->
    blend_neon_group dst src alpha i
    = store_bytes dst (usize (i * 4))
        (vqmovn_u16 (vmull_u8 (take 8 src_data)
                       (replicate 8 (nth 0 alpha_data 0)))
         ++ vqmovn_u16 (vmull_u8 (drop 8 src_data)
                          (replicate 8 (nth 0 alpha_data 0)))).
Proof.
  intros src_data dst_data alpha_data Hs Hd Ha.
  unfold blend_neon_group. rewrite Hs, Hd, Ha. reflexivity.
Qed.

(** C2: on one full group of 16 pixels (destination all 0, source all 255,
    alpha all 255) the scalar path blends all 64 bytes to 255, while the
    vectorized path stores 16 bytes and leaves the other 48 at 0. *)
Theorem obs_blend_alpha_neon_full_group :
  obs_blend_alpha_generic (replicate 64 0) (replicate 64 255)
    (replicate 16 255) 16
  = Some (replicate 64 255) /\
  obs_blend_alpha_neon (replicate 64 0) (replicate 64 255)
    (replicate 16 255) 16
  = Some (replicate 16 255 ++ replicate 48 0).
Proof. split; vm_compute; reflexivity. Qed.

(** With alpha 0 the scalar path keeps the destination; the vectorized path
    overwrites the first 16 bytes of the group with 0. *)
Example obs_blend_alpha_neon_alpha_zero :
  obs_blend_alpha_generic (replicate 64 9) (replicate 64 200)
    (replicate 16 0) 16
  = Some (replicate 64 9) /\
  obs_blend_alpha_neon (replicate 64 9) (replicate 64 200)
    (replicate 16 0) 16
  = Some (replicate 16 0 ++ replicate 48 9).
Proof. split; vm_compute; reflexivity. Qed.

(** ** [obs_aligned_alloc] *)

Lemma is_pow2_spec n : is_pow2 n <-> exists k, 0 <= k /\ n = 2 ^ k.
Proof.
  unfold is_pow2. split.
  - intros [Hn Hlog]. exists (Z.log2 n). split; [apply Z.log2_nonneg | lia].
  - intros (k & Hk & ->). split; [apply Z.pow_pos_nonneg; lia |].
    now rewrite Z.log2_pow2.
Qed.

Lemma align_up_mod p a : 0 < a -> align_up p a mod a = 0.
Proof. intros Ha. unfold align_up. apply Z.mod_mul. lia. Qed.

(** The bump allocator keeps the promises of POSIX. *)
#[global] Instance bump_posix : PosixAllocator bump_heap.
Proof.
  split.
  - intros h p alignment size Hbad.
    unfold posix_memalign, bump_allocator.
    now rewrite bool_decide_eq_false_2.
  - intros h p alignment size.
    unfold posix_memalign, bump_allocator.
    destruct (bool_decide_reflect (valid_alignment alignment))
      as [[[Hpos _] _] |]; [| discriminate].
    destruct (bool_decide _); [| discriminate].
    intros _. simpl. now apply align_up_mod.
Qed.

Section AlignedAlloc.
Context `{PosixAllocator heap}.

Lemma obs_aligned_alloc_result (h : heap) (alignment size : Z) :
  (obs_aligned_alloc h alignment size).1
  = if decide ((posix_memalign h NULL alignment size).1.1 = 0)
    then (posix_memalign h NULL alignment size).1.2
    else NULL.
Proof.
  unfold obs_aligned_alloc.
  destruct (posix_memalign h NULL alignment size) as [[rc p] h']. simpl.
  destruct (decide (rc = 0)) as [-> | Hrc].
  - now rewrite bool_decide_eq_false_2 by lia.
  - now rewrite bool_decide_eq_true_2.
Qed.

Lemma obs_aligned_alloc_bad_alignment (h : heap) (alignment size : Z) :
  ~ valid_alignment alignment ->
  (obs_aligned_alloc h alignment size).1 = NULL.
Proof.
  intros Hbad. rewrite obs_aligned_alloc_result.
  rewrite (memalign_einval h NULL alignment size Hbad).
  reflexivity.
Qed.

Lemma obs_aligned_alloc_aligned (h : heap) (alignment size : Z) :
  (obs_aligned_alloc h alignment size).1 <> NULL ->
  (obs_aligned_alloc h alignment size).1 mod alignment = 0.
Proof.
  rewrite obs_aligned_alloc_result.
  destruct (decide _) as [Hok | _]; [| congruence].
  intros _. now apply memalign_aligned.
Qed.
End AlignedAlloc.

(** C5 as stated fails: on a conforming allocator a request of size zero
    with alignment 64 is served with the non-null address 4096. *)
Lemma obs_aligned_alloc_zero_size :
  PosixAllocator bump_heap /\
  is_pow2 64 /\
  (obs_aligned_alloc bump_heap0 64 0).1 = 4096 /\
  4096 <> NULL.
Proof.
  split; [exact bump_posix |]. split; [compute_done |].
  split; [vm_compute; reflexivity | discriminate].
Qed.

(** C5, amended: with the [posix_memalign] of POSIX, [obs_aligned_alloc]
    returns NULL whenever the alignment is not a power of two, its result is
    NULL exactly when [posix_memalign] reports an error or stores NULL (the
    size is not examined), and every non-null result is a multiple of the
    alignment. *)
Theorem obs_aligned_alloc_contract
  (heap : Type) (A : Allocator heap) (P : PosixAllocator heap)
  (h : heap) (alignment size : Z) :
  (~ is_pow2 alignment -> (obs_aligned_alloc h alignment size).1 = NULL) /\
  ((obs_aligned_alloc h alignment size).1 = NULL <->
   (posix_memalign h NULL alignment size).1.1 <> 0 \/
   (posix_memalign h NULL alignment size).1.2 = NULL) /\
  ((obs_aligned_alloc h alignment size).1 <> NULL ->
   (obs_aligned_alloc h alignment size).1 mod alignment = 0).
Proof.
  split; [| split].
  - intros Hbad. apply obs_aligned_alloc_bad_alignment.
    intros [Hpow _]. exact (Hbad Hpow).
  - rewrite obs_aligned_alloc_result. destruct (decide _); intuition congruence.
  - apply obs_aligned_alloc_aligned.
Qed.

Lemma obs_aligned_alloc_contract_witness :
  (~ is_pow2 64 -> (obs_aligned_alloc bump_heap0 64 100).1 = NULL) /\
  ((obs_aligned_alloc bump_heap0 64 100).1 = NULL <->
   (posix_memalign bump_heap0 NULL 64 100).1.1 <> 0 \/
   (posix_memalign bump_heap0 NULL 64 100).1.2 = NULL) /\
  ((obs_aligned_alloc bump_heap0 64 100).1 <> NULL ->
   (obs_aligned_alloc bump_heap0 64 100).1 mod 64 = 0).
Proof.
  exact (obs_aligned_alloc_contract bump_heap bump_allocator bump_posix
           bump_heap0 64 100).
Defined.

(** ** Logging levels *)

(** C10: the four level constants are strictly ordered, [LOG_ERROR] lowest
    and [LOG_DEBUG] highest. *)
Theorem log_levels_ordered :
  LOG_ERROR < LOG_WARNING /\ LOG_WARNING < LOG_INFO /\ LOG_INFO < LOG_DEBUG /\
  forall l, l ∈ [LOG_ERROR; LOG_WARNING; LOG_INFO; LOG_DEBUG] ->
            LOG_ERROR <= l <= LOG_DEBUG.
Proof.
  unfold LOG_ERROR, LOG_WARNING, LOG_INFO, LOG_DEBUG.
  repeat split; try lia;
    repeat (apply elem_of_cons in H as [-> | H]; [lia |]);
    now apply elem_of_nil in H.
Qed.

(** ** Statistics counter *)

Lemma u64_small z : 0 <= z <= UINT64_MAX -> u64 z = z.
Proof. unfold UINT64_MAX, u64. intros Hz. apply Z.mod_small. lia. Qed.

Lemma u64_range z : 0 <= u64 z <= UINT64_MAX.
Proof.
  unfold UINT64_MAX, u64. pose proof (Z.mod_pos_bound z (2 ^ 64)). lia.
Qed.

Lemma u64_add_l x y : u64 (u64 x + y) = u64 (x + y).
Proof. unfold u64. apply Zplus_mod_idemp_l. Qed.

Lemma get_set_field f g v c :
  get_field f (set_field g v c) = if decide (f = g) then v else get_field f c.
Proof. destruct f, g, c; reflexivity. Qed.

Lemma init_fields c f : get_field f (obs_atomic_counter_init c) = 0.
Proof. destruct f; reflexivity. Qed.

Lemma added_app f ops1 ops2 :
  added f (ops1 ++ ops2) = added f ops1 + added f ops2.
Proof.
  unfold added. induction ops1 as [| op ops1 IH]; simpl; [reflexivity | lia].
Qed.

Lemma added_nonneg f ops : Forall is_add ops -> 0 <= added f ops.
Proof.
  unfold added. induction 1 as [| op ops Hop _ IH]; simpl; [lia |].
  destruct op as [| g delta]; simpl in *; [contradiction |].
  destruct (decide (f = g)); lia.
Qed.

Lemma run_app c ops1 ops2 : run c (ops1 ++ ops2) = run (run c ops1) ops2.
Proof. unfold run. apply foldl_app. Qed.

(** A field follows the sum of the operands modulo [2^64]. *)
Lemma exec_add f c op :
  is_add op -> get_field f (exec c op) = u64 (get_field f c + added_by f op)
               \/ (added_by f op = 0 /\ get_field f (exec c op) = get_field f c).
Proof.
  destruct op as [| g delta]; simpl; [contradiction |]. intros _.
  rewrite get_set_field. destruct (decide (f = g)) as [-> | _]; [left | right]; auto.
Qed.

(** Without wrap-around a field is its initial value plus what was added. *)
Lemma run_exact f ops :
  forall c,
    Forall is_add ops ->
    0 <= get_field f c ->
    get_field f c + added f ops <= UINT64_MAX ->
    get_field f (run c ops) = get_field f c + added f ops.
Proof.
  induction ops as [| op ops IH]; intros c Hops Hc Hmax.
  - unfold added. simpl. lia.
  - inversion Hops as [| ? ? Hop Hops']; subst.
    change (added f (op :: ops)) with (added_by f op + added f ops) in *.
    pose proof (added_nonneg f ops Hops') as Hrest.
    change (run c (op :: ops)) with (run (exec c op) ops).
    assert (Hby : 0 <= added_by f op).
    { destruct op as [| g delta]; simpl in *; [contradiction |].
      destruct (decide (f = g)); lia. }
    destruct (exec_add f c op Hop) as [Hex | [H0 Hex]].
    + rewrite u64_small in Hex by lia. rewrite IH; trivial; lia.
    + rewrite IH; trivial; lia.
Qed.

Lemma increments_are_adds deltas :
  Forall (fun d => 0 <= d <= UINT64_MAX) deltas ->
  Forall is_add (increments deltas).
Proof.
  unfold increments. induction 1 as [| d deltas Hd _ IH]; simpl.
  - constructor.
  - constructor; [exact Hd |].
    constructor; [simpl; unfold UINT64_MAX; lia | exact IH].
Qed.

Lemma increments_cons d deltas :
  increments (d :: deltas) = increment_ops d ++ increments deltas.
Proof. reflexivity. Qed.

Lemma added_increment_ops d :
  added Value (increment_ops d) = d /\ added Updates (increment_ops d) = 1.
Proof. unfold added. simpl. split; lia. Qed.

Lemma added_increments deltas :
  added Value (increments deltas) = sum_deltas deltas /\
  added Updates (increments deltas) = Z.of_nat (length deltas).
Proof.
  induction deltas as [| d deltas [IHv IHu]]; [split; reflexivity |].
  rewrite increments_cons, !added_app, IHv, IHu.
  destruct (added_increment_ops d) as [-> ->].
  unfold sum_deltas. simpl. split; lia.
Qed.

(** C6 as stated fails: after an increment by [2^64 - 1] an increment by 1
    takes [value] from [2^64 - 1] back to 0. *)
Lemma counter_value_wraps :
  let c0 := obs_atomic_counter_init (Build_counter 0 0) in
  let c1 := obs_atomic_counter_increment c0 UINT64_MAX in
  let c2 := obs_atomic_counter_increment c1 1 in
  value c1 = UINT64_MAX /\ value c2 = 0 /\ value c2 < value c1.
Proof. vm_compute. repeat split; reflexivity. Qed.

(** C6, amended: as long as the deltas sum to at most [2^64 - 1] (and there
    are at most [2^64 - 1] calls), [value] and [updates] never go down: at
    any two points [ops1] and [ops1 ++ ops2] of a sequence of increments on
    a fresh counter, neither field is smaller at the later point. *)
Theorem counter_fields_monotone
  (deltas : list Z) (ops1 ops2 ops3 : list atomic_op)
  (c0 : obs_atomic_counter_t) :
  Forall (fun d => 0 <= d <= UINT64_MAX) deltas ->
  sum_deltas deltas <= UINT64_MAX ->
  Z.of_nat (length deltas) <= UINT64_MAX ->
  increments deltas = ops1 ++ ops2 ++ ops3 ->
  value (run (obs_atomic_counter_init c0) ops1)
  <= value (run (obs_atomic_counter_init c0) (ops1 ++ ops2)) /\
  updates (run (obs_atomic_counter_init c0) ops1)
  <= updates (run (obs_atomic_counter_init c0) (ops1 ++ ops2)).
Proof.
  intros Hd Hsum Hlen Hsplit.
  pose proof (increments_are_adds deltas Hd) as Hall.
  destruct (added_increments deltas) as [Hv Hu].
  rewrite Hsplit in Hall, Hv, Hu.
  apply Forall_app in Hall as [H1 H23]. apply Forall_app in H23 as [H2 H3].
  assert (Hmono : forall f,
             added f (ops1 ++ ops2 ++ ops3) <= UINT64_MAX ->
             get_field f (run (obs_atomic_counter_init c0) ops1)
             <= get_field f (run (obs_atomic_counter_init c0) (ops1 ++ ops2))).
  { intros f Hf. rewrite !added_app in Hf.
    pose proof (added_nonneg f ops1 H1). pose proof (added_nonneg f ops2 H2).
    pose proof (added_nonneg f ops3 H3).
    rewrite !run_exact; rewrite ?init_fields, ?added_app;
      try apply Forall_app; auto; lia. }
  split.
  - apply (Hmono Value). lia.
  - apply (Hmono Updates). lia.
Qed.

Lemma counter_fields_monotone_witness :
  value (run (obs_atomic_counter_init (Build_counter 5 5))
           [atomic_fetch_add Value 7])
  <= value (run (obs_atomic_counter_init (Build_counter 5 5))
              ([atomic_fetch_add Value 7]
               ++ [atomic_fetch_add Updates 1; atomic_fetch_add Value 0])) /\
  updates (run (obs_atomic_counter_init (Build_counter 5 5))
             [atomic_fetch_add Value 7])
  <= updates (run (obs_atomic_counter_init (Build_counter 5 5))
                ([atomic_fetch_add Value 7]
                 ++ [atomic_fetch_add Updates 1; atomic_fetch_add Value 0])).
Proof.
  apply (counter_fields_monotone [7; 0]
           [atomic_fetch_add Value 7]
           [atomic_fetch_add Updates 1; atomic_fetch_add Value 0]
           [atomic_fetch_add Updates 1] (Build_counter 5 5));
    compute_done.
Defined.

(** *** Interleaved executions *)

Lemma pending_split f (before : pool) (t : list atomic_op) (after : pool) :
  pending f (before ++ t :: after)
  = pending f before + added f t + pending f after.
Proof.
  unfold pending. rewrite join_app.
  change (mjoin (t :: after)) with (t ++ mjoin after).
  rewrite !added_app. lia.
Qed.

Lemma remaining_split (before : pool) (t : list atomic_op) (after : pool) :
  length (mjoin (before ++ t :: after))
  = (length (mjoin before) + length t + length (mjoin after))%nat.
Proof.
  rewrite join_app. change (mjoin (t :: after)) with (t ++ mjoin after).
  rewrite !length_app. lia.
Qed.

(** A step removes one operation from the pool. *)
Lemma step_remaining c p c' p' :
  step (c, p) (c', p') -> length (mjoin p) = S (length (mjoin p')).
Proof.
  inversion 1; subst. rewrite !remaining_split. simpl. lia.
Qed.

Lemma step_adds_only c p c' p' :
  step (c, p) (c', p') -> adds_only p -> adds_only p'.
Proof.
  unfold adds_only. inversion 1; subst. intros Hall.
  apply Forall_app in Hall as [Hb Hrest].
  inversion Hrest as [| ? ? Ht Ha]; subst.
  inversion Ht; subst.
  apply Forall_app. split; [assumption |]. now constructor.
Qed.

(** What a field holds plus what is still to be added to it is conserved
    modulo [2^64]: no increment is lost. *)
Lemma step_conserves f c p c' p' :
  step (c, p) (c', p') -> adds_only p ->
  u64 (get_field f c' + pending f p') = u64 (get_field f c + pending f p).
Proof.
  unfold adds_only. inversion 1; subst. intros Hall.
  apply Forall_app in Hall as [_ Hrest].
  inversion Hrest as [| ? ? Ht _]; subst.
  inversion Ht as [| ? ? Hop _]; subst.
  rewrite !pending_split.
  change (added f (op :: rest)) with (added_by f op + added f rest).
  destruct (exec_add f c op Hop) as [-> | [H0 ->]].
  - rewrite u64_add_l. f_equal. lia.
  - f_equal. lia.
Qed.

Lemma step_field_range f c p c' p' :
  step (c, p) (c', p') -> adds_only p ->
  0 <= get_field f c <= UINT64_MAX -> 0 <= get_field f c' <= UINT64_MAX.
Proof.
  unfold adds_only. inversion 1; subst. intros Hall Hc.
  apply Forall_app in Hall as [_ Hrest].
  inversion Hrest as [| ? ? Ht _]; subst.
  inversion Ht as [| ? ? Hop _]; subst.
  destruct (exec_add f c op Hop) as [-> | [_ ->]];
    [apply u64_range | exact Hc].
Qed.

Lemma rtc_conserved c0 p0 s :
  adds_only p0 ->
  (forall f, 0 <= get_field f c0 <= UINT64_MAX) ->
  rtc step (c0, p0) s -> conserved c0 p0 s.
Proof.
  intros Hp0 Hc0. revert s. apply rtc_ind_r.
  - split; [exact Hp0 |]. intros f. split; [apply Hc0 | reflexivity].
  - intros [c p] [c' p'] _ Hstep [Hp Hf]. simpl in Hp. split.
    + exact (step_adds_only c p c' p' Hstep Hp).
    + intros f. destruct (Hf f) as [Hrange Hsum]. simpl in *. split.
      * exact (step_field_range f c p c' p' Hstep Hp Hrange).
      * rewrite <- Hsum. exact (step_conserves f c p c' p' Hstep Hp).
Qed.

Lemma nsteps_remaining n s s' :
  nsteps step n s s' ->
  length (mjoin s.2) = (n + length (mjoin s'.2))%nat.
Proof.
  induction 1 as [| n [c p] [c' p'] z Hstep _ IH]; [reflexivity |].
  simpl in *. rewrite (step_remaining c p c' p' Hstep), IH. lia.
Qed.

(** A pool is finished or one of its threads can take a step. *)
Lemma finished_or_runnable (p : pool) :
  finished p \/
  exists before op rest after, p = before ++ (op :: rest) :: after.
Proof.
  induction p as [| t p [Hfin | (before & op & rest & after & ->)]].
  - left. constructor.
  - destruct t as [| op rest].
    + left. now constructor.
    + right. now exists [], op, rest, p.
  - right. now exists (t :: before), op, rest, after.
Qed.

Lemma progress c p : ~ finished p -> exists s', step (c, p) s'.
Proof.
  intros Hrun.
  destruct (finished_or_runnable p)
    as [Hfin | (before & op & rest & after & ->)]; [contradiction |].
  eexists. constructor.
Qed.

(** Every pool can be run to the end. *)
Lemma runs_to_end (n : nat) :
  forall c p, length (mjoin p) = n ->
    exists c' p', rtc step (c, p) (c', p') /\ finished p'.
Proof.
  induction n as [| n IH]; intros c p Hlen.
  - exists c, p. split; [reflexivity |].
    apply join_nil_1. now apply nil_length_inv.
  - destruct (finished_or_runnable p)
      as [Hfin | (before & op & rest & after & ->)].
    + apply join_nil_2 in Hfin. rewrite Hfin in Hlen. discriminate.
    + rewrite remaining_split in Hlen. simpl in Hlen.
      destruct (IH (exec c op) (before ++ rest :: after))
        as (c' & p' & Hrtc & Hfin).
      { rewrite remaining_split. lia. }
      exists c', p'. split; [| exact Hfin].
      eapply rtc_l; [constructor | exact Hrtc].
Qed.

(** The pool of [T] threads with [K] increments by 1 each. *)
Lemma increment_thread_adds K : Forall is_add (increment_thread K).
Proof.
  apply increments_are_adds, Forall_replicate. unfold UINT64_MAX. lia.
Qed.

Lemma sum_deltas_ones K : sum_deltas (replicate K 1) = Z.of_nat K.
Proof.
  unfold sum_deltas. induction K as [| K IH]; [reflexivity |].
  simpl replicate. simpl foldr. lia.
Qed.

Lemma increment_thread_added K f : added f (increment_thread K) = Z.of_nat K.
Proof.
  unfold increment_thread.
  destruct (added_increments (replicate K 1)) as [Hv Hu]. destruct f.
  - rewrite Hv. apply sum_deltas_ones.
  - rewrite Hu, length_replicate. reflexivity.
Qed.

Lemma increment_thread_length K : length (increment_thread K) = (2 * K)%nat.
Proof.
  unfold increment_thread. induction K as [| K IH]; [reflexivity |].
  change (replicate (S K) 1) with (1 :: replicate K 1).
  rewrite increments_cons, length_app, IH. simpl. lia.
Qed.

Lemma threads_pending T K f :
  pending f (replicate T (increment_thread K)) = Z.of_nat (T * K).
Proof.
  unfold pending. induction T as [| T IH]; [reflexivity |].
  change (mjoin (replicate (S T) (increment_thread K)))
    with (increment_thread K ++ mjoin (replicate T (increment_thread K))).
  rewrite added_app, IH, increment_thread_added. lia.
Qed.

Lemma threads_remaining T K :
  length (mjoin (replicate T (increment_thread K))) = (2 * T * K)%nat.
Proof.
  induction T as [| T IH]; [reflexivity |].
  change (mjoin (replicate (S T) (increment_thread K)))
    with (increment_thread K ++ mjoin (replicate T (increment_thread K))).
  rewrite length_app, IH, increment_thread_length. lia.
Qed.

(** C7: [T] threads each call [obs_atomic_counter_increment(counter, 1)] [K]
    times on a freshly initialized counter.  Every interleaving of their
    atomic operations ends, within [2 * T * K] steps and only when all
    threads are done, and then [obs_atomic_counter_get] and
    [obs_atomic_counter_get_updates] both return [T * K], a number the
    [uint64_t] result is assumed to hold. *)
Theorem counter_concurrent_increments
  (T K : nat) (c0 : obs_atomic_counter_t) :
  Z.of_nat (T * K) <= UINT64_MAX ->
  let start :=
    (obs_atomic_counter_init c0, replicate T (increment_thread K)) in
  (forall n s, nsteps step n start s -> (n <= 2 * T * K)%nat) /\
  (forall c p, rtc step start (c, p) -> ~ finished p ->
               exists s', step (c, p) s') /\
  (exists c p, rtc step start (c, p) /\ finished p) /\
  (forall c p, rtc step start (c, p) -> finished p ->
               obs_atomic_counter_get c = Z.of_nat (T * K) /\
               obs_atomic_counter_get_updates c = Z.of_nat (T * K)).
Proof.
  intros Hmax start. split; [| split; [| split]].
  - intros n s Hn. apply nsteps_remaining in Hn. simpl in Hn.
    rewrite threads_remaining in Hn. lia.
  - intros c p _ Hrun. now apply progress.
  - exact (runs_to_end _ _ _ eq_refl).
  - intros c p Hrtc Hfin.
    assert (Hinv : conserved (obs_atomic_counter_init c0)
                     (replicate T (increment_thread K)) (c, p)).
    { apply rtc_conserved; [| | exact Hrtc].
      - apply Forall_replicate, increment_thread_adds.
      - intros f. rewrite init_fields. unfold UINT64_MAX. lia. }
    destruct Hinv as [_ Hf].
    assert (Hget : forall f, get_field f c = Z.of_nat (T * K)).
    { intros f. destruct (Hf f) as [Hrange Hsum]. simpl in Hrange, Hsum.
      unfold pending in Hsum at 1. rewrite (join_nil_2 p Hfin) in Hsum.
      rewrite threads_pending, init_fields in Hsum.
      change (added f []) with 0 in Hsum.
      rewrite Z.add_0_r, Z.add_0_l in Hsum.
      rewrite !u64_small in Hsum by lia. exact Hsum. }
    split; [exact (Hget Value) | exact (Hget Updates)].
Qed.

Lemma counter_concurrent_increments_witness :
  let start :=
    (obs_atomic_counter_init (Build_counter 7 9),
     replicate 3 (increment_thread 2)) in
  (forall n s, nsteps step n start s -> (n <= 2 * 3 * 2)%nat) /\
  (forall c p, rtc step start (c, p) -> ~ finished p ->
               exists s', step (c, p) s') /\
  (exists c p, rtc step start (c, p) /\ finished p) /\
  (forall c p, rtc step start (c, p) -> finished p ->
               obs_atomic_counter_get c = Z.of_nat (3 * 2) /\
               obs_atomic_counter_get_updates c = Z.of_nat (3 * 2)).
Proof.
  apply (counter_concurrent_increments 3 2 (Build_counter 7 9)).
  compute_done.
Defined.

(** * Further properties *)

(** ** Bounds of the block operations *)

Lemma load_bytes_Some (m : list Z) (off n : Z) (bs : list Z) :
  load_bytes m off n = Some bs ->
  0 <= off /\ 0 <= n /\ off + n <= Z.of_nat (length m) /\
  Z.of_nat (length bs) = n.
Proof.
  unfold load_bytes. destruct (bool_decide_reflect
    (0 <= off /\ 0 <= n /\ off + n <= Z.of_nat (length m))) as [Hin |];
    [| discriminate].
  intros [= <-]. rewrite length_take, length_drop. lia.
Qed.

Lemma load_bytes_None (m : list Z) (off n : Z) :
  off + n > Z.of_nat (length m) -> load_bytes m off n = None.
Proof. intros Hout. unfold load_bytes. rewrite bool_decide_eq_false_2; [easy | lia]. Qed.

Lemma store_bytes_Some (m : list Z) (off : Z) (bs m' : list Z) :
  store_bytes m off bs = Some m' ->
  0 <= off /\ off + Z.of_nat (length bs) <= Z.of_nat (length m) /\
  length m' = length m.
Proof.
  unfold store_bytes. destruct (bool_decide_reflect
    (0 <= off /\ off + Z.of_nat (length bs) <= Z.of_nat (length m)))
    as [Hin |]; [| discriminate].
  intros [= <-]. rewrite !length_app, length_take, length_drop. lia.
Qed.

Lemma store_bytes_None (m : list Z) (off : Z) (bs : list Z) :
  off + Z.of_nat (length bs) > Z.of_nat (length m) ->
  store_bytes m off bs = None.
Proof. intros Hout. unfold store_bytes. rewrite bool_decide_eq_false_2; [easy | lia]. Qed.

Lemma memcpy_None (dst : list Z) (d : Z) (src : list Z) (s n : Z) :
  d + n > Z.of_nat (length dst) \/ s + n > Z.of_nat (length src) ->
  memcpy dst d src s n = None.
Proof.
  intros Hout. unfold memcpy.
  destruct (load_bytes src s n) as [bs |] eqn:Hload; [| reflexivity].
  apply load_bytes_Some in Hload as (_ & _ & Hfit & Hlen). simpl.
  apply store_bytes_None. lia.
Qed.

Lemma vld1q_u8_x4_Some (m : list Z) (off : Z) (data : uint8x16x4_t) :
  vld1q_u8_x4 m off = Some data ->
  0 <= off /\ off + 64 <= Z.of_nat (length m) /\
  length (val data 0 ++ val data 1 ++ val data 2 ++ val data 3)%nat = 64%nat.
Proof.
  unfold vld1q_u8_x4. destruct (load_bytes m off 64) as [bs |] eqn:Hload;
    [| discriminate].
  apply load_bytes_Some in Hload as (Hoff & _ & Hfit & Hlen).
  intros [= <-]. cbn [val]. rewrite x4_lanes by lia. lia.
Qed.

(** Past the end of an array the chunk loop stops on an access out of
    bounds. *)
Lemma memcpy_neon_chunks_None (n : nat) :
  forall (dst : list Z) (d : Z) (src : list Z) (s : Z),
    0 <= d <= Z.of_nat (length dst) -> 0 <= s <= Z.of_nat (length src) ->
    d + Z.of_nat n > Z.of_nat (length dst)
    \/ s + Z.of_nat n > Z.of_nat (length src) ->
    memcpy_neon_chunks dst d src s (Z.of_nat n) = None.
Proof.
  induction n as [n IH] using lt_wf_ind. intros dst d src s Hd Hs Hout.
  simp memcpy_neon_chunks. destruct (decide (64 <= Z.of_nat n)) as [Hge | Hlt].
  - simpl. destruct (vld1q_u8_x4 src s) as [data |] eqn:Hload; [| reflexivity].
    apply vld1q_u8_x4_Some in Hload as (_ & Hsfit & Hlen).
    destruct (vst1q_u8_x4 dst d data) as [dst' |] eqn:Hstore; [| reflexivity].
    apply store_bytes_Some in Hstore as (_ & Hdfit & Hlen').
    rewrite Hlen in Hdfit.
    replace (Z.of_nat n - 64) with (Z.of_nat (n - 64)) by lia.
    apply IH; lia.
  - simpl. rewrite bool_decide_eq_true_2 by lia. now apply memcpy_None.
Qed.

Lemma obs_memcpy_neon_None (dst src : list Z) (size : Z) :
  0 <= size ->
  size > Z.of_nat (length dst) \/ size > Z.of_nat (length src) ->
  obs_memcpy_neon dst src size = None.
Proof.
  intros Hsize Hout. unfold obs_memcpy_neon.
  destruct (bool_decide (64 <= size)).
  - rewrite <- (Z2Nat.id size) by lia. apply memcpy_neon_chunks_None; lia.
  - apply memcpy_None. lia.
Qed.

Lemma memcpy_closed (dst src : list Z) (n : Z) :
  0 <= n <= Z.of_nat (length dst) -> n <= Z.of_nat (length src) ->
  memcpy dst 0 src 0 n = Some (take (Z.to_nat n) src ++ drop (Z.to_nat n) dst).
Proof.
  intros Hd Hs.
  destruct (split_at (Z.to_nat n) dst) as (old & post & -> & Hold); [lia |].
  destruct (split_at (Z.to_nat n) src) as (new & spost & -> & Hnew); [lia |].
  rewrite take_app_length', drop_app_length' by congruence.
  rewrite <- (Z2Nat.id n) at 1 by lia. rewrite <- Hnew.
  apply (memcpy_app [] old post [] new spost). congruence.
Qed.

(** X1: the ARM definition of [obs_memcpy_neon] and the fallback macro
    ([memcpy]) give the same result on every input, also where an access
    would leave an array. *)
Theorem obs_memcpy_neon_is_memcpy (dst src : list Z) (size : Z) :
  obs_memcpy_neon dst src size = memcpy dst 0 src 0 size.
Proof.
  destruct (bool_decide_reflect (64 <= size)) as [Hge | Hlt].
  - destruct (decide (size <= Z.of_nat (length dst)
                      /\ size <= Z.of_nat (length src))) as [[Hd Hs] | Hout].
    + rewrite obs_memcpy_neon_closed, memcpy_closed by lia. reflexivity.
    + rewrite obs_memcpy_neon_None, memcpy_None by lia. reflexivity.
  - unfold obs_memcpy_neon. now rewrite bool_decide_eq_false_2.
Qed.

(** X2: [obs_memcpy_neon] stays inside the two arrays exactly when [size]
    is at most the length of each. *)
Theorem obs_memcpy_neon_in_bounds (dst src : list Z) (size : Z) :
  0 <= size ->
  is_Some (obs_memcpy_neon dst src size)
  <-> size <= Z.of_nat (length dst) /\ size <= Z.of_nat (length src).
Proof.
  intros Hsize. split.
  - intros [dst' Hrun].
    destruct (decide (size <= Z.of_nat (length dst)
                      /\ size <= Z.of_nat (length src))) as [Hin | Hout];
      [exact Hin |].
    rewrite obs_memcpy_neon_None in Hrun by lia. discriminate.
  - intros [Hd Hs]. rewrite obs_memcpy_neon_closed by lia. eauto.
Qed.

Lemma obs_memcpy_neon_in_bounds_witness :
  is_Some (obs_memcpy_neon (replicate 70 0) (replicate 80 1) 67)
  <-> 67 <= Z.of_nat (length (replicate 70 0))
      /\ 67 <= Z.of_nat (length (replicate 80 1)).
Proof.
  apply (obs_memcpy_neon_in_bounds (replicate 70 0) (replicate 80 1) 67).
  compute_done.
Defined.

(** X3: after a copy that fits, the first [size] bytes of the destination
    are those of the source, the other bytes and the length are as
    before. *)
Theorem obs_memcpy_neon_contents (dst src : list Z) (size : Z) :
  0 <= size <= Z.of_nat (length dst) -> size <= Z.of_nat (length src) ->
  exists dst',
    obs_memcpy_neon dst src size = Some dst' /\
    length dst' = length dst /\
    (forall i : nat, Z.of_nat i < size -> dst' !! i = src !! i) /\
    (forall i : nat, size <= Z.of_nat i -> dst' !! i = dst !! i).
Proof.
  intros Hd Hs. eexists. split; [now apply obs_memcpy_neon_closed |].
  assert (Hlen : length (take (Z.to_nat size) src) = Z.to_nat size)
    by (apply length_take_le; lia).
  split; [| split].
  - rewrite length_app, Hlen, length_drop. lia.
  - intros i Hi. rewrite lookup_app_l by lia. apply lookup_take_lt. lia.
  - intros i Hi. rewrite lookup_app_r by lia.
    rewrite lookup_drop, Hlen. f_equal. lia.
Qed.

Lemma obs_memcpy_neon_contents_witness :
  exists dst',
    obs_memcpy_neon (replicate 70 0) (replicate 80 1) 67 = Some dst' /\
    length dst' = length (replicate 70 0) /\
    (forall i : nat, Z.of_nat i < 67 -> dst' !! i = replicate 80 1 !! i) /\
    (forall i : nat, 67 <= Z.of_nat i -> dst' !! i = replicate 70 0 !! i).
Proof.
  apply (obs_memcpy_neon_contents (replicate 70 0) (replicate 80 1) 67);
    compute_done.
Defined.

(** X4: copying back restores the source: after [obs_memcpy_neon(dst, src,
    size)], [obs_memcpy_neon(src, dst, size)] leaves [src] as it was. *)
Theorem obs_memcpy_neon_copy_back (dst src dst' : list Z) (size : Z) :
  0 <= size ->
  obs_memcpy_neon dst src size = Some dst' ->
  obs_memcpy_neon src dst' size = Some src.
Proof.
  intros Hsize Hrun.
  destruct (decide (size <= Z.of_nat (length dst)
                    /\ size <= Z.of_nat (length src))) as [[Hd Hs] | Hout].
  - rewrite obs_memcpy_neon_closed in Hrun by lia. injection Hrun as <-.
    rewrite obs_memcpy_neon_closed.
    + rewrite take_app_le by (rewrite length_take; lia).
      rewrite take_take, Nat.min_id. f_equal. apply take_drop.
    + lia.
    + rewrite length_app, length_take, length_drop. lia.
  - rewrite obs_memcpy_neon_None in Hrun by lia. discriminate.
Qed.

Lemma obs_memcpy_neon_copy_back_witness :
  obs_memcpy_neon (Z.of_nat <$> seq 0 70)
    ((Z.of_nat <$> seq 0 67) ++ replicate 3 0) 67
  = Some (Z.of_nat <$> seq 0 70).
Proof.
  apply (obs_memcpy_neon_copy_back (replicate 70 0) (Z.of_nat <$> seq 0 70)
           ((Z.of_nat <$> seq 0 67) ++ replicate 3 0) 67).
  - compute_done.
  - vm_compute. reflexivity.
Defined.

(** ** [obs_memset_neon], further *)

Lemma memset_None (dst : list Z) (d v n : Z) :
  n < 0 \/ d + n > Z.of_nat (length dst) -> memset dst d v n = None.
Proof.
  intros Hout. unfold memset.
  destruct (bool_decide_reflect (0 <= n)) as [Hn |]; [| reflexivity].
  apply store_bytes_None. rewrite length_replicate. lia.
Qed.

Lemma memset_closed (dst : list Z) (v n : Z) :
  0 <= n <= Z.of_nat (length dst) ->
  memset dst 0 v n
  = Some (replicate (Z.to_nat n) (u8 v) ++ drop (Z.to_nat n) dst).
Proof.
  intros Hn.
  destruct (split_at (Z.to_nat n) dst) as (old & post & -> & Hold); [lia |].
  rewrite drop_app_length' by congruence.
  rewrite <- (Z2Nat.id n) at 1 by lia. rewrite <- Hold.
  apply (memset_app [] old post).
Qed.

Lemma memset_neon_chunk_Some (dst : list Z) (d x : Z) (dst' : list Z) :
  memset_neon_chunk dst d (vdupq_n_u8 x) = Some dst' ->
  0 <= d /\ d + 64 <= Z.of_nat (length dst) /\ length dst' = length dst.
Proof.
  unfold memset_neon_chunk, vst1q_u8. intros Hrun.
  destruct (store_bytes dst d (vdupq_n_u8 x)) as [m1 |] eqn:H1;
    [| discriminate].
  simpl in Hrun.
  destruct (store_bytes m1 (d + 16) (vdupq_n_u8 x)) as [m2 |] eqn:H2;
    [| discriminate].
  simpl in Hrun.
  destruct (store_bytes m2 (d + 32) (vdupq_n_u8 x)) as [m3 |] eqn:H3;
    [| discriminate].
  simpl in Hrun.
  apply store_bytes_Some in H1 as (Hd & _ & L1).
  apply store_bytes_Some in H2 as (_ & _ & L2).
  apply store_bytes_Some in H3 as (_ & _ & L3).
  apply store_bytes_Some in Hrun as (_ & Hfit & L4).
  unfold vdupq_n_u8 in Hfit. rewrite length_replicate in Hfit. lia.
Qed.

Lemma memset_neon_chunks_None (n : nat) :
  forall (dst : list Z) (d v : Z),
    0 <= d <= Z.of_nat (length dst) ->
    d + Z.of_nat n > Z.of_nat (length dst) ->
    memset_neon_chunks dst d (vdupq_n_u8 (u8 v)) v (Z.of_nat n) = None.
Proof.
  induction n as [n IH] using lt_wf_ind. intros dst d v Hd Hout.
  simp memset_neon_chunks. destruct (decide (64 <= Z.of_nat n)) as [Hge | Hlt].
  - simpl.
    destruct (memset_neon_chunk dst d (vdupq_n_u8 (u8 v))) as [dst' |] eqn:Hc;
      [| reflexivity].
    apply memset_neon_chunk_Some in Hc as (_ & Hfit & Hlen).
    replace (Z.of_nat n - 64) with (Z.of_nat (n - 64)) by lia.
    apply IH; lia.
  - simpl. rewrite bool_decide_eq_true_2 by lia. apply memset_None. lia.
Qed.

Lemma obs_memset_neon_None (dst : list Z) (v size : Z) :
  size < 0 \/ size > Z.of_nat (length dst) ->
  obs_memset_neon dst v size = None.
Proof.
  intros Hout. unfold obs_memset_neon.
  destruct (bool_decide_reflect (64 <= size)) as [Hge | Hlt].
  - rewrite <- (Z2Nat.id size) by lia. apply memset_neon_chunks_None; lia.
  - apply memset_None. lia.
Qed.

(** X5: the ARM definition of [obs_memset_neon] and the fallback macro
    ([memset]) give the same result on every input. *)
Theorem obs_memset_neon_is_memset (dst : list Z) (value size : Z) :
  obs_memset_neon dst value size = memset dst 0 value size.
Proof.
  destruct (decide (0 <= size <= Z.of_nat (length dst))) as [Hin | Hout].
  - rewrite obs_memset_neon_closed, memset_closed by lia. reflexivity.
  - rewrite obs_memset_neon_None, memset_None by lia. reflexivity.
Qed.

(** X6: [obs_memset_neon] stays inside the array exactly when [size] is at
    most its length. *)
Theorem obs_memset_neon_in_bounds (dst : list Z) (value size : Z) :
  0 <= size ->
  is_Some (obs_memset_neon dst value size) <-> size <= Z.of_nat (length dst).
Proof.
  intros Hsize. split.
  - intros [dst' Hrun].
    destruct (decide (size <= Z.of_nat (length dst))) as [Hin | Hout];
      [exact Hin |].
    rewrite obs_memset_neon_None in Hrun by lia. discriminate.
  - intros Hin. rewrite obs_memset_neon_closed by lia. eauto.
Qed.

Lemma obs_memset_neon_in_bounds_witness :
  is_Some (obs_memset_neon (replicate 70 0) 7 71)
  <-> 71 <= Z.of_nat (length (replicate 70 0)).
Proof.
  apply (obs_memset_neon_in_bounds (replicate 70 0) 7 71). compute_done.
Defined.

(** X7: a fill that fits leaves the bytes from index [size] on as they were
    and keeps a byte array a byte array. *)
Theorem obs_memset_neon_frame (dst : list Z) (value size : Z) :
  0 <= size <= Z.of_nat (length dst) ->
  exists dst',
    obs_memset_neon dst value size = Some dst' /\
    (forall i : nat, size <= Z.of_nat i -> dst' !! i = dst !! i) /\
    (is_buffer dst -> is_buffer dst').
Proof.
  intros Hn. eexists. split; [now apply obs_memset_neon_closed |]. split.
  - intros i Hi. rewrite lookup_app_r by (rewrite length_replicate; lia).
    rewrite lookup_drop, length_replicate. f_equal. lia.
  - intros [Hbytes Hmax]. split.
    + apply Forall_app. split.
      * apply Forall_replicate, u8_is_byte.
      * now apply Forall_drop.
    + rewrite length_app, length_replicate, length_drop. lia.
Qed.

Lemma obs_memset_neon_frame_witness :
  exists dst',
    obs_memset_neon (replicate 70 3) 511 65 = Some dst' /\
    (forall i : nat, 65 <= Z.of_nat i -> dst' !! i = replicate 70 3 !! i) /\
    (is_buffer (replicate 70 3) -> is_buffer dst').
Proof. apply (obs_memset_neon_frame (replicate 70 3) 511 65). compute_done. Defined.

Lemma u8_add_multiple v k : u8 (v + 256 * k) = u8 v.
Proof.
  unfold u8. change (2 ^ 8) with 256.
  rewrite Z.mul_comm. apply Z.mod_add. lia.
Qed.

(** X8: only the low 8 bits of [value] matter: values that differ by a
    multiple of 256 fill alike. *)
Theorem obs_memset_neon_low_byte (dst : list Z) (value k size : Z) :
  obs_memset_neon dst (value + 256 * k) size = obs_memset_neon dst value size.
Proof.
  destruct (decide (0 <= size <= Z.of_nat (length dst))) as [Hin | Hout].
  - rewrite !obs_memset_neon_closed by lia. now rewrite u8_add_multiple.
  - rewrite !obs_memset_neon_None by lia. reflexivity.
Qed.

(** X9: of two fills of the same array the later one wins where it covers
    the earlier one. *)
Theorem obs_memset_neon_twice (dst : list Z) (v1 v2 n1 n2 : Z) :
  0 <= n1 <= n2 ->
  obs_memset_neon dst v1 n1 ≫= (fun d => obs_memset_neon d v2 n2)
  = obs_memset_neon dst v2 n2.
Proof.
  intros Hn.
  destruct (decide (n2 <= Z.of_nat (length dst))) as [Hin | Hout].
  - rewrite (obs_memset_neon_closed dst v1 n1) by lia. simpl.
    rewrite !obs_memset_neon_closed;
      rewrite ?length_app, ?length_replicate, ?length_drop; try lia.
    f_equal. f_equal.
    rewrite drop_app_ge by (rewrite length_replicate; lia).
    rewrite length_replicate, drop_drop. f_equal. lia.
  - rewrite (obs_memset_neon_None dst v2 n2) by lia.
    destruct (obs_memset_neon dst v1 n1) as [d |] eqn:Hfirst; [| reflexivity].
    simpl. apply obs_memset_neon_None. right.
    destruct (decide (n1 <= Z.of_nat (length dst))) as [Hin1 | Hout1].
    + rewrite obs_memset_neon_closed in Hfirst by lia. injection Hfirst as <-.
      rewrite length_app, length_replicate, length_drop. lia.
    + rewrite obs_memset_neon_None in Hfirst by lia. discriminate.
Qed.

Lemma obs_memset_neon_twice_witness :
  obs_memset_neon (replicate 70 3) 5 10
    ≫= (fun d => obs_memset_neon d 6 65)
  = obs_memset_neon (replicate 70 3) 6 65.
Proof. apply (obs_memset_neon_twice (replicate 70 3) 5 6 10 65). compute_done. Defined.

(** X10: a copy over a fill of the same size is the copy alone. *)
Theorem obs_memcpy_neon_over_memset (dst src : list Z) (value size : Z) :
  obs_memset_neon dst value size ≫= (fun d => obs_memcpy_neon d src size)
  = obs_memcpy_neon dst src size.
Proof.
  destruct (decide (0 <= size <= Z.of_nat (length dst))) as [Hin | Hout].
  - rewrite obs_memset_neon_closed by lia. simpl.
    destruct (decide (size <= Z.of_nat (length src))) as [Hs | Hs].
    + rewrite !obs_memcpy_neon_closed;
        rewrite ?length_app, ?length_replicate, ?length_drop; try lia.
      do 2 f_equal.
      rewrite drop_app_ge by (rewrite length_replicate; lia).
      rewrite length_replicate, drop_drop. f_equal. lia.
    + rewrite !obs_memcpy_neon_None by lia. reflexivity.
  - rewrite obs_memset_neon_None by lia. simpl.
    destruct (decide (0 <= size)) as [Hpos | Hneg].
    + rewrite obs_memcpy_neon_None by lia. reflexivity.
    + unfold obs_memcpy_neon. rewrite bool_decide_eq_false_2 by lia.
      unfold memcpy, load_bytes. rewrite bool_decide_eq_false_2 by lia.
      reflexivity.
Qed.

(** ** The scalar blend, further *)

Lemma blend_expr_alpha_255 d s : blend_expr d s 255 = s.
Proof.
  unfold blend_expr. replace (d * (255 - 255) + s * 255) with (s * 255) by lia.
  apply Z.quot_mul. lia.
Qed.

(** The blend never leaves the interval spanned by the two colours. *)
Lemma blend_expr_between d s a :
  is_byte d -> is_byte s -> is_byte a ->
  Z.min d s <= blend_expr d s a <= Z.max d s.
Proof.
  intros Hd Hs Ha. rewrite blend_expr_div by assumption.
  unfold is_byte, UINT8_MAX in *. split.
  - apply Z.div_le_lower_bound; nia.
  - apply Z.div_le_upper_bound; nia.
Qed.

Lemma blend_image_is_buffer (dst src alpha : list Z) (count : Z) :
  is_buffer dst -> is_buffer src -> is_buffer alpha ->
  is_buffer (blend_image dst src alpha count).
Proof.
  intros [Hd Hmax] Hs Ha. unfold blend_image. split.
  - apply Forall_lookup. intros k x. rewrite lookup_blend_bytes.
    destruct (dst !! k) as [d |] eqn:Hk; simpl; [| discriminate].
    intros [= <-]. unfold blend_byte.
    assert (Hbd : is_byte d) by exact (proj1 (Forall_lookup _ _) Hd k d Hk).
    destruct (bool_decide _); [| exact Hbd].
    destruct (src !! k) as [s |] eqn:Hsk; [| exact Hbd].
    destruct (alpha !! (k / 4)%nat) as [a |] eqn:Hak; [| exact Hbd].
    apply blend_expr_is_byte;
      [exact Hbd | exact (is_buffer_lookup _ _ _ Hs Hsk)
       | exact (is_buffer_lookup _ _ _ Ha Hak)].
  - now rewrite length_blend_bytes.
Qed.

(** X11: the scalar blend writes only the [4 * count] bytes of the pixels:
    the length and the bytes from index [4 * count] on are as before, and a
    byte array stays a byte array. *)
Theorem obs_blend_alpha_generic_frame (dst src alpha : list Z) (count : Z) :
  is_buffer dst -> is_buffer src -> is_buffer alpha ->
  0 <= count ->
  4 * count <= Z.of_nat (length dst) ->
  4 * count <= Z.of_nat (length src) ->
  count <= Z.of_nat (length alpha) ->
  exists dst',
    obs_blend_alpha_generic dst src alpha count = Some dst' /\
    length dst' = length dst /\
    is_buffer dst' /\
    forall k : nat, 4 * count <= Z.of_nat k -> dst' !! k = dst !! k.
Proof.
  intros Hdst Hsrc Halpha Hcount Hd Hs Ha.
  exists (blend_image dst src alpha count).
  split; [now apply obs_blend_alpha_generic_image |].
  split; [apply length_blend_bytes |].
  split; [now apply blend_image_is_buffer |].
  intros k Hk. unfold blend_image. rewrite lookup_blend_bytes.
  destruct (dst !! k) as [d |]; [| reflexivity]. simpl. unfold blend_byte.
  now rewrite bool_decide_eq_false_2 by lia.
Qed.

Lemma obs_blend_alpha_generic_frame_witness :
  exists dst',
    obs_blend_alpha_generic [10; 20; 30; 40; 1; 2; 3; 4; 77]
      [255; 0; 255; 0; 9; 9; 9; 9] [128; 0] 2 = Some dst' /\
    length dst' = length [10; 20; 30; 40; 1; 2; 3; 4; 77] /\
    is_buffer dst' /\
    forall k : nat, 4 * 2 <= Z.of_nat k ->
      dst' !! k = [10; 20; 30; 40; 1; 2; 3; 4; 77] !! k.
Proof.
  apply (obs_blend_alpha_generic_frame [10; 20; 30; 40; 1; 2; 3; 4; 77]
           [255; 0; 255; 0; 9; 9; 9; 9] [128; 0] 2);
    compute_done.
Defined.

(** X12: a pixel whose alpha is 255 takes the four bytes of the source
    pixel. *)
Theorem obs_blend_alpha_generic_alpha_opaque
  (dst src alpha : list Z) (count i : Z) :
  is_buffer dst -> is_buffer src -> is_buffer alpha ->
  4 * count <= Z.of_nat (length dst) ->
  4 * count <= Z.of_nat (length src) ->
  count <= Z.of_nat (length alpha) ->
  0 <= i < count ->
  alpha !! Z.to_nat i = Some 255 ->
  exists dst',
    obs_blend_alpha_generic dst src alpha count = Some dst' /\
    forall c, 0 <= c < 4 ->
      dst' !! Z.to_nat (i * 4 + c) = src !! Z.to_nat (i * 4 + c).
Proof.
  intros Hdst Hsrc Halpha Hd Hs Ha Hi Hai.
  exists (blend_image dst src alpha count). split.
  - apply obs_blend_alpha_generic_image; trivial. lia.
  - intros c Hc.
    assert (Hdk : (Z.to_nat (i * 4 + c) < length dst)%nat) by lia.
    assert (Hsk : (Z.to_nat (i * 4 + c) < length src)%nat) by lia.
    destruct (lookup_lt_is_Some_2 dst _ Hdk) as [d Hdv].
    destruct (lookup_lt_is_Some_2 src _ Hsk) as [s Hsv].
    rewrite Hsv, <- (blend_expr_alpha_255 d s).
    eapply lookup_blend_image; eassumption.
Qed.

Lemma obs_blend_alpha_generic_alpha_opaque_witness :
  exists dst',
    obs_blend_alpha_generic [10; 20; 30; 40; 1; 2; 3; 4]
      [255; 0; 255; 0; 9; 8; 7; 6] [128; 255] 2 = Some dst' /\
    forall c, 0 <= c < 4 ->
      dst' !! Z.to_nat (1 * 4 + c)
      = [255; 0; 255; 0; 9; 8; 7; 6] !! Z.to_nat (1 * 4 + c).
Proof.
  apply (obs_blend_alpha_generic_alpha_opaque [10; 20; 30; 40; 1; 2; 3; 4]
           [255; 0; 255; 0; 9; 8; 7; 6] [128; 255] 2 1);
    compute_done.
Defined.

(** X13: every blended byte lies between the destination byte and the
    source byte it is computed from. *)
Theorem obs_blend_alpha_generic_between
  (dst src alpha : list Z) (count : Z) :
  is_buffer dst -> is_buffer src -> is_buffer alpha ->
  0 <= count ->
  4 * count <= Z.of_nat (length dst) ->
  4 * count <= Z.of_nat (length src) ->
  count <= Z.of_nat (length alpha) ->
  exists dst',
    obs_blend_alpha_generic dst src alpha count = Some dst' /\
    forall (k : nat) d s,
      Z.of_nat k < 4 * count ->
      dst !! k = Some d -> src !! k = Some s ->
      exists x, dst' !! k = Some x /\ Z.min d s <= x <= Z.max d s.
Proof.
  intros Hdst Hsrc Halpha Hcount Hd Hs Ha.
  exists (blend_image dst src alpha count).
  split; [now apply obs_blend_alpha_generic_image |].
  intros k d s Hk Hdk Hsk.
  destruct (lookup_lt_is_Some_2 alpha (k / 4)%nat) as [a Hak].
  { apply Nat.Div0.div_lt_upper_bound. lia. }
  exists (blend_expr d s a). split.
  - unfold blend_image. rewrite lookup_blend_bytes, Hdk. simpl.
    unfold blend_byte. rewrite bool_decide_eq_true_2 by exact Hk.
    now rewrite Hsk, Hak.
  - apply blend_expr_between;
      [exact (is_buffer_lookup _ _ _ Hdst Hdk)
      | exact (is_buffer_lookup _ _ _ Hsrc Hsk)
      | exact (is_buffer_lookup _ _ _ Halpha Hak)].
Qed.

Lemma obs_blend_alpha_generic_between_witness :
  exists dst',
    obs_blend_alpha_generic [10; 20; 30; 40; 1; 2; 3; 4]
      [255; 0; 255; 0; 9; 8; 7; 6] [128; 255] 2 = Some dst' /\
    forall (k : nat) d s,
      Z.of_nat k < 4 * 2 ->
      [10; 20; 30; 40; 1; 2; 3; 4] !! k = Some d ->
      [255; 0; 255; 0; 9; 8; 7; 6] !! k = Some s ->
      exists x, dst' !! k = Some x /\ Z.min d s <= x <= Z.max d s.
Proof.
  apply (obs_blend_alpha_generic_between [10; 20; 30; 40; 1; 2; 3; 4]
           [255; 0; 255; 0; 9; 8; 7; 6] [128; 255] 2);
    compute_done.
Defined.

Lemma rd_Some (m : list Z) (i b : Z) :
  rd m i = Some b -> 0 <= i < Z.of_nat (length m).
Proof.
  unfold rd. destruct (bool_decide_reflect (0 <= i)) as [Hi |]; [| discriminate].
  intros Hb. apply lookup_lt_Some in Hb. lia.
Qed.

Lemma blend_store_Some (m src : list Z) (a k : Z) (m' : list Z) :
  blend_store m src a k = Some m' ->
  0 <= k < Z.of_nat (length m) /\ k < Z.of_nat (length src)
  /\ length m' = length m.
Proof.
  unfold blend_store.
  destruct (rd m k) as [d |] eqn:Hd; [| discriminate]. simpl.
  destruct (rd src k) as [s |] eqn:Hs; [| discriminate]. simpl.
  apply rd_Some in Hd. apply rd_Some in Hs.
  rewrite wr_insert by exact Hd. intros [= <-].
  rewrite length_insert. lia.
Qed.

(** A pixel that is blended lies inside the three arrays. *)
Lemma blend_pixel_Some (m src alpha : list Z) (i : Z) (m' : list Z) :
  0 <= i -> i * 4 + 3 <= SIZE_MAX ->
  blend_pixel m src alpha i = Some m' ->
  i < Z.of_nat (length alpha) /\ i * 4 + 4 <= Z.of_nat (length m)
  /\ i * 4 + 4 <= Z.of_nat (length src).
Proof.
  intros Hi Hmax. unfold blend_pixel.
  destruct (rd alpha i) as [a |] eqn:Ha; [| discriminate]. simpl.
  apply rd_Some in Ha.
  rewrite (usize_small (i * 4)) by lia. rewrite !usize_small by lia.
  destruct (blend_store m src a (i * 4 + 0)) as [m1 |] eqn:H0;
    [| discriminate]. simpl.
  destruct (blend_store m1 src a (i * 4 + 1)) as [m2 |] eqn:H1;
    [| discriminate]. simpl.
  destruct (blend_store m2 src a (i * 4 + 2)) as [m3 |] eqn:H2;
    [| discriminate]. simpl.
  intros H3.
  apply blend_store_Some in H0 as (_ & _ & L0).
  apply blend_store_Some in H1 as (_ & _ & L1).
  apply blend_store_Some in H2 as (_ & _ & L2).
  apply blend_store_Some in H3 as (Hm & Hs & _). lia.
Qed.

(** The loop reaches pixel [j] when the arrays hold the pixels below it. *)
Lemma blend_scalar_from_prefix (dst src alpha : list Z) (count j : Z) :
  is_buffer dst -> is_buffer src -> is_buffer alpha ->
  4 * j <= Z.of_nat (length dst) ->
  4 * j <= Z.of_nat (length src) ->
  j <= Z.of_nat (length alpha) ->
  j <= count ->
  forall i, 0 <= i <= j ->
    blend_scalar_from (blend_image dst src alpha i) src alpha count i
    = blend_scalar_from (blend_image dst src alpha j) src alpha count j.
Proof.
  intros Hdst Hsrc Halpha Hd Hs Ha Hj i Hi.
  remember (Z.to_nat (j - i)) as n eqn:Hn.
  revert i Hi Hn. induction n as [| n IH]; intros i Hi Hn.
  - replace i with j by lia. reflexivity.
  - rewrite (blend_scalar_from_equation_1 _ _ _ count i).
    simpl. destruct (decide (i < count)) as [Hlt | Hge]; [| lia]. simpl.
    rewrite (blend_pixel_step dst src alpha j) by (trivial; lia).
    apply IH; lia.
Qed.

Lemma obs_blend_alpha_generic_None (dst src alpha : list Z) (count : Z) :
  is_buffer dst -> is_buffer src -> is_buffer alpha ->
  0 <= count ->
  4 * count > Z.of_nat (length dst) \/ 4 * count > Z.of_nat (length src)
  \/ count > Z.of_nat (length alpha) ->
  obs_blend_alpha_generic dst src alpha count = None.
Proof.
  intros Hdst Hsrc Halpha Hcount Hout.
  set (j := Z.min (Z.of_nat (length alpha))
              (Z.min (Z.of_nat (length dst) / 4) (Z.of_nat (length src) / 4))).
  assert (Hj : 0 <= j < count /\ 4 * j <= Z.of_nat (length dst)
               /\ 4 * j <= Z.of_nat (length src)
               /\ j <= Z.of_nat (length alpha)
               /\ (Z.of_nat (length alpha) <= j
                   \/ Z.of_nat (length dst) < 4 * j + 4
                   \/ Z.of_nat (length src) < 4 * j + 4)).
  { subst j. Z.div_mod_to_equations. lia. }
  destruct Hj as (Hj0 & Hjd & Hjs & Hja & Hstop).
  unfold obs_blend_alpha_generic.
  rewrite <- (blend_bytes_0 dst src alpha) at 1.
  change (blend_bytes dst src alpha 0) with (blend_bytes dst src alpha (4 * 0)).
  fold (blend_image dst src alpha 0).
  rewrite (blend_scalar_from_prefix dst src alpha count j) by (trivial; lia).
  rewrite blend_scalar_from_equation_1. simpl.
  destruct (decide (j < count)) as [Hlt | Hge]; [| lia]. simpl.
  destruct (blend_pixel (blend_image dst src alpha j) src alpha j)
    as [m' |] eqn:Hpix; [| reflexivity].
  apply blend_pixel_Some in Hpix as (Hpa & Hpd & Hps).
  - unfold blend_image in Hpd. rewrite length_blend_bytes in Hpd. lia.
  - lia.
  - destruct Hdst as [_ Hmax]. unfold SIZE_MAX in *. lia.
Qed.

(** X14: with byte arrays, [obs_blend_alpha_generic] stays inside them
    exactly when [dst] and [src] hold [4 * count] bytes and [alpha] holds
    [count] bytes. *)
Theorem obs_blend_alpha_generic_in_bounds
  (dst src alpha : list Z) (count : Z) :
  is_buffer dst -> is_buffer src -> is_buffer alpha ->
  0 <= count ->
  is_Some (obs_blend_alpha_generic dst src alpha count)
  <-> 4 * count <= Z.of_nat (length dst)
      /\ 4 * count <= Z.of_nat (length src)
      /\ count <= Z.of_nat (length alpha).
Proof.
  intros Hdst Hsrc Halpha Hcount. split.
  - intros [dst' Hrun].
    destruct (decide (4 * count <= Z.of_nat (length dst)
                      /\ 4 * count <= Z.of_nat (length src)
                      /\ count <= Z.of_nat (length alpha))) as [Hin | Hout];
      [exact Hin |].
    rewrite obs_blend_alpha_generic_None in Hrun by (trivial; lia).
    discriminate.
  - intros (Hd & Hs & Ha).
    rewrite obs_blend_alpha_generic_image by trivial. eauto.
Qed.

Lemma obs_blend_alpha_generic_in_bounds_witness :
  is_Some (obs_blend_alpha_generic [10; 20; 30; 40; 1; 2; 3]
             [255; 0; 255; 0; 9; 8; 7; 6] [128; 255] 2)
  <-> 4 * 2 <= Z.of_nat (length [10; 20; 30; 40; 1; 2; 3])
      /\ 4 * 2 <= Z.of_nat (length [255; 0; 255; 0; 9; 8; 7; 6])
      /\ 2 <= Z.of_nat (length [128; 255]).
Proof.
  apply (obs_blend_alpha_generic_in_bounds [10; 20; 30; 40; 1; 2; 3]
           [255; 0; 255; 0; 9; 8; 7; 6] [128; 255] 2);
    compute_done.
Defined.

(** ** The vectorized blend, further *)

Lemma neon_lane_is_byte s a : is_byte (neon_lane s a).
Proof.
  unfold neon_lane, is_byte, UINT8_MAX.
  pose proof (Z.mod_pos_bound (s * a) (2 ^ 16)). lia.
Qed.

(** The vector an iteration stores. *)
Lemma neon_vector (sd ad : list Z) :
  length sd = 16%nat ->
  vcombine_u8
    (vqmovn_u16 (vmull_u8 (vget_low_u8 sd)
                   (vget_low_u8 (vdupq_laneq_u8 ad 0))))
    (vqmovn_u16 (vmull_u8 (vget_high_u8 sd)
                   (vget_high_u8 (vdupq_laneq_u8 ad 0))))
  = (fun x => neon_lane x (nth 0 ad 0)) <$> sd.
Proof.
  intros Hlen.
  do 16 (destruct sd as [| ? sd]; [discriminate |]).
  destruct sd; [reflexivity | discriminate].
Qed.

Lemma length_neon_groups_image dst src alpha g :
  length (neon_groups_image dst src alpha g) = length dst.
Proof. unfold neon_groups_image. apply length_imap. Qed.

Lemma lookup_neon_groups_image dst src alpha g k :
  neon_groups_image dst src alpha g !! k = neon_byte src alpha g k <$> dst !! k.
Proof. unfold neon_groups_image. apply list_lookup_imap. Qed.

Lemma neon_groups_image_0 dst src alpha : neon_groups_image dst src alpha 0 = dst.
Proof.
  apply list_eq. intros k. rewrite lookup_neon_groups_image.
  destruct (dst !! k) as [d |]; [| reflexivity]. simpl.
  unfold neon_byte. rewrite bool_decide_eq_false_2 by lia. reflexivity.
Qed.

Lemma neon_groups_image_is_buffer dst src alpha g :
  is_buffer dst -> is_buffer (neon_groups_image dst src alpha g).
Proof.
  intros [Hd Hmax]. split; [| now rewrite length_neon_groups_image].
  apply Forall_lookup. intros k x. rewrite lookup_neon_groups_image.
  destruct (dst !! k) as [d |] eqn:Hk; simpl; [| discriminate].
  intros [= <-]. unfold neon_byte.
  assert (Hbd : is_byte d) by exact (proj1 (Forall_lookup _ _) Hd k d Hk).
  destruct (bool_decide _); [| exact Hbd].
  destruct (src !! k); [| exact Hbd].
  destruct (alpha !! _); [apply neon_lane_is_byte | exact Hbd].
Qed.

Lemma load_bytes_take_drop (m : list Z) (off n : nat) :
  (off + n <= length m)%nat ->
  load_bytes m (Z.of_nat off) (Z.of_nat n) = Some (take n (drop off m)).
Proof.
  intros Hfit. unfold load_bytes. rewrite bool_decide_eq_true_2 by lia.
  now rewrite !Nat2Z.id.
Qed.

Lemma neon_byte_unchanged (src alpha : list Z) (g : Z) (k : nat) (d : Z) :
  ~ (Z.of_nat k < 64 * g /\ Z.of_nat k mod 64 < 16) ->
  neon_byte src alpha g k d = d.
Proof. intros Hk. unfold neon_byte. now rewrite bool_decide_eq_false_2. Qed.

Lemma neon_byte_stored (src alpha : list Z) (g : Z) (k : nat) (d s a : Z) :
  Z.of_nat k < 64 * g -> Z.of_nat k mod 64 < 16 ->
  src !! k = Some s ->
  alpha !! Z.to_nat (16 * (Z.of_nat k / 64)) = Some a ->
  neon_byte src alpha g k d = neon_lane s a.
Proof.
  intros Hk Hm Hs Ha. unfold neon_byte.
  rewrite bool_decide_eq_true_2 by (split; assumption). now rewrite Hs, Ha.
Qed.

Section NeonBlend.
Variables dst src alpha : list Z.
Hypothesis dst_buffer : is_buffer dst.
Hypothesis src_buffer : is_buffer src.
Hypothesis alpha_buffer : is_buffer alpha.

(** One iteration of the 16-pixel loop moves the closed form forward by
    one group. *)
Lemma blend_neon_group_step (g : nat) :
  (64 * (g + 1) <= length dst)%nat ->
  (64 * (g + 1) <= length src)%nat ->
  (16 * (g + 1) <= length alpha)%nat ->
  blend_neon_group (neon_groups_image dst src alpha (Z.of_nat g)) src alpha
    (16 * Z.of_nat g)
  = Some (neon_groups_image dst src alpha (Z.of_nat g + 1)).
Proof.
  intros Hd Hs Ha. destruct dst_buffer as [_ Hmax].
  set (m := neon_groups_image dst src alpha (Z.of_nat g)).
  assert (Hm : length m = length dst) by apply length_neon_groups_image.
  remember (64 * g)%nat as o eqn:Ho. remember (16 * g)%nat as oa eqn:Hoa.
  unfold blend_neon_group, vld1q_u8.
  rewrite usize_small by lia.
  replace (16 * Z.of_nat g * 4) with (Z.of_nat o) by lia.
  replace (16 * Z.of_nat g) with (Z.of_nat oa) by lia.
  change 16 with (Z.of_nat 16).
  rewrite !load_bytes_take_drop by lia. simpl mbind. cbn [val].
  rewrite neon_vector by (rewrite length_take, length_drop; lia).
  unfold vst1q_u8, store_bytes.
  rewrite bool_decide_eq_true_2
    by (rewrite length_fmap, length_take, length_drop; lia).
  f_equal. rewrite Nat2Z.id.
  rewrite length_fmap, length_take_le by (rewrite length_drop; lia).
  assert (Ha0 : nth 0 (take 16 (drop oa alpha)) 0 = default 0 (alpha !! oa)).
  { rewrite nth_lookup, lookup_take_lt, lookup_drop by lia.
    do 2 f_equal. lia. }
  rewrite Ha0. clear Ha0.
  destruct (lookup_lt_is_Some_2 alpha oa) as [a Hag]; [lia |].
  rewrite Hag. simpl default.
  apply list_eq. intros k.
  rewrite (lookup_neon_groups_image _ _ _ (Z.of_nat g + 1)).
  destruct (decide (k < o)%nat) as [Hlo | Hlo].
  - rewrite lookup_app_l by (rewrite length_take; lia).
    rewrite lookup_take_lt by lia. subst m.
    rewrite lookup_neon_groups_image.
    destruct (dst !! k) as [d |]; [| reflexivity]. simpl. f_equal.
    unfold neon_byte.
    destruct (decide (Z.of_nat k mod 64 < 16)).
    + rewrite !bool_decide_eq_true_2 by lia. reflexivity.
    + rewrite !bool_decide_eq_false_2 by lia. reflexivity.
  - rewrite lookup_app_r by (rewrite length_take; lia).
    rewrite length_take_le by lia.
    destruct (decide (k < o + 16)%nat) as [Hmid | Hhi].
    + rewrite lookup_app_l
        by (rewrite length_fmap, length_take, length_drop; lia).
      rewrite list_lookup_fmap, lookup_take_lt, lookup_drop by lia.
      replace (o + (k - o))%nat with k by lia.
      destruct (lookup_lt_is_Some_2 src k) as [s Hsk]; [lia |].
      destruct (lookup_lt_is_Some_2 dst k) as [d Hdk]; [lia |].
      rewrite Hsk, Hdk. simpl. f_equal. symmetry.
      assert (Hq : Z.of_nat k / 64 = Z.of_nat g /\ Z.of_nat k mod 64 < 16)
        by (Z.div_mod_to_equations; lia).
      destruct Hq as [Hq Hr].
      apply neon_byte_stored; [lia | exact Hr | exact Hsk |].
      rewrite Hq. rewrite <- Hag. f_equal. lia.
    + rewrite lookup_app_r
        by (rewrite length_fmap, length_take, length_drop; lia).
      rewrite length_fmap, length_take_le by (rewrite length_drop; lia).
      rewrite lookup_drop.
      replace (o + 16 + (k - o - 16))%nat with k by lia.
      subst m. rewrite lookup_neon_groups_image.
      destruct (dst !! k) as [d |]; [| reflexivity]. simpl. f_equal.
      rewrite !neon_byte_unchanged; [reflexivity | |].
      * Z.div_mod_to_equations. lia.
      * lia.
Qed.
End NeonBlend.

(** *** The scalar loop entered in the middle *)

Lemma length_alpha_from (i : Z) (alpha : list Z) :
  i <= Z.of_nat (length alpha) -> length (alpha_from i alpha) = length alpha.
Proof.
  intros Hi. unfold alpha_from.
  rewrite length_app, length_replicate, length_drop. lia.
Qed.

Lemma lookup_alpha_from_lt (i : Z) (alpha : list Z) (j : nat) :
  Z.of_nat j < i -> alpha_from i alpha !! j = Some 0.
Proof.
  intros Hj. unfold alpha_from.
  rewrite lookup_app_l by (rewrite length_replicate; lia).
  apply lookup_replicate_2. lia.
Qed.

Lemma lookup_alpha_from_ge (i : Z) (alpha : list Z) (j : nat) :
  0 <= i <= Z.of_nat j -> alpha_from i alpha !! j = alpha !! j.
Proof.
  intros Hj. unfold alpha_from.
  rewrite lookup_app_r by (rewrite length_replicate; lia).
  rewrite lookup_drop, length_replicate. f_equal. lia.
Qed.

Lemma alpha_from_is_buffer (i : Z) (alpha : list Z) :
  i <= Z.of_nat (length alpha) -> is_buffer alpha ->
  is_buffer (alpha_from i alpha).
Proof.
  intros Hi [Hbytes Hmax]. split; [| now rewrite length_alpha_from].
  unfold alpha_from. apply Forall_app. split.
  - apply Forall_replicate. unfold is_byte, UINT8_MAX. lia.
  - now apply Forall_drop.
Qed.

(** Nothing has been blended yet when the loop is entered at [i]. *)
Lemma blend_image_alpha_from (m src alpha : list Z) (i : Z) :
  blend_image m src (alpha_from i alpha) i = m.
Proof.
  apply list_eq. intros k. unfold blend_image. rewrite lookup_blend_bytes.
  destruct (m !! k) as [d |]; [| reflexivity]. simpl. f_equal.
  unfold blend_byte.
  destruct (bool_decide_reflect (Z.of_nat k < 4 * i)) as [Hk |];
    [| reflexivity].
  destruct (src !! k) as [s |]; [| reflexivity].
  rewrite lookup_alpha_from_lt.
  - apply blend_expr_alpha_0.
  - assert (Z.of_nat (k / 4) = Z.of_nat k / 4) by apply Nat2Z.inj_div.
    Z.div_mod_to_equations. lia.
Qed.

Lemma blend_pixel_alpha_from (m src alpha : list Z) (i j : Z) :
  0 <= i <= j ->
  blend_pixel m src alpha j = blend_pixel m src (alpha_from i alpha) j.
Proof.
  intros Hj. unfold blend_pixel, rd.
  rewrite bool_decide_eq_true_2 by lia.
  now rewrite lookup_alpha_from_ge by lia.
Qed.

Lemma blend_scalar_from_tail (m src alpha : list Z) (count i : Z) :
  is_buffer m -> is_buffer src -> is_buffer alpha ->
  4 * count <= Z.of_nat (length m) ->
  4 * count <= Z.of_nat (length src) ->
  count <= Z.of_nat (length alpha) ->
  0 <= i <= count ->
  blend_scalar_from m src alpha count i
  = Some (blend_image m src (alpha_from i alpha) count).
Proof.
  intros Hm Hsrc Halpha Hd Hs Ha Hi.
  assert (Hloop : forall j, i <= j <= count ->
            blend_scalar_from (blend_image m src (alpha_from i alpha) j)
              src alpha count j
            = Some (blend_image m src (alpha_from i alpha) count)).
  { intros j Hj. remember (Z.to_nat (count - j)) as n eqn:Hn.
    revert j Hj Hn. induction n as [| n IH]; intros j Hj Hn.
    - simp blend_scalar_from. destruct (decide (j < count)); [lia |].
      simpl. do 2 f_equal. lia.
    - simp blend_scalar_from. destruct (decide (j < count)); [| lia].
      simpl. rewrite (blend_pixel_alpha_from _ _ _ i j) by lia.
      rewrite (blend_pixel_step m src (alpha_from i alpha) count);
        trivial; try lia.
      + apply IH; lia.
      + apply alpha_from_is_buffer; [lia | exact Halpha].
      + rewrite length_alpha_from; lia. }
  rewrite <- (blend_image_alpha_from m src alpha i) at 1.
  apply Hloop. lia.
Qed.

(** *** The 16-pixel loop *)

Lemma blend_neon_from_groups (dst src alpha : list Z) (count : Z) :
  is_buffer dst -> is_buffer src -> is_buffer alpha ->
  0 <= count ->
  4 * count <= Z.of_nat (length dst) ->
  4 * count <= Z.of_nat (length src) ->
  count <= Z.of_nat (length alpha) ->
  forall g : nat, Z.of_nat g <= count / 16 ->
    blend_neon_from (neon_groups_image dst src alpha (Z.of_nat g)) src alpha
      count (16 * Z.of_nat g)
    = blend_scalar_from (neon_groups_image dst src alpha (count / 16))
        src alpha count (16 * (count / 16)).
Proof.
  intros Hdst Hsrc Halpha Hcount Hd Hs Ha g Hg.
  assert (Hmax : Z.of_nat (length dst) <= SIZE_MAX) by apply Hdst.
  unfold SIZE_MAX in Hmax.
  remember (Z.to_nat (count / 16 - Z.of_nat g)) as n eqn:Hn.
  revert g Hg Hn. induction n as [| n IH]; intros g Hg Hn.
  - assert (Hgg : Z.of_nat g = count / 16) by lia. rewrite Hgg.
    simp blend_neon_from.
    destruct (decide (usize (16 * (count / 16) + 16) <= count)) as [Hle | Hgt].
    + exfalso. pose proof (usize_small (16 * (count / 16) + 16)) as Hu.
      unfold SIZE_MAX in Hu. Z.div_mod_to_equations. lia.
    + reflexivity.
  - assert (Hu : usize (16 * Z.of_nat g + 16) = 16 * Z.of_nat (g + 1)).
    { rewrite usize_small; [lia |]. unfold SIZE_MAX.
      Z.div_mod_to_equations. lia. }
    simp blend_neon_from.
    destruct (decide (usize (16 * Z.of_nat g + 16) <= count)) as [Hle | Hgt].
    2:{ exfalso. Z.div_mod_to_equations. lia. }
    simpl.
    destruct (decide (16 * Z.of_nat g < usize (16 * Z.of_nat g + 16)))
      as [Hlt | Hge]; [| lia].
    simpl. rewrite Hu. rewrite blend_neon_group_step; trivial.
    + replace (Z.of_nat g + 1) with (Z.of_nat (g + 1)) by lia.
      apply IH; lia.
    + lia.
    + lia.
    + lia.
Qed.

Lemma obs_blend_alpha_neon_image (dst src alpha : list Z) (count : Z) :
  is_buffer dst -> is_buffer src -> is_buffer alpha ->
  0 <= count ->
  4 * count <= Z.of_nat (length dst) ->
  4 * count <= Z.of_nat (length src) ->
  count <= Z.of_nat (length alpha) ->
  obs_blend_alpha_neon dst src alpha count
  = Some (neon_image dst src alpha count).
Proof.
  intros Hdst Hsrc Halpha Hcount Hd Hs Ha.
  unfold obs_blend_alpha_neon, neon_image.
  rewrite <- (neon_groups_image_0 dst src alpha) at 1.
  change 0 with (16 * Z.of_nat 0) at 2. change 0 with (Z.of_nat 0) at 1.
  rewrite blend_neon_from_groups; trivial.
  - apply blend_scalar_from_tail; trivial.
    + now apply neon_groups_image_is_buffer.
    + now rewrite length_neon_groups_image.
    + Z.div_mod_to_equations. lia.
  - Z.div_mod_to_equations. lia.
Qed.

Lemma lookup_neon_image (dst src alpha : list Z) (count : Z) (k : nat) :
  neon_image dst src alpha count !! k
  = (fun d => blend_byte src (alpha_from (16 * (count / 16)) alpha)
                (4 * count) k (neon_byte src alpha (count / 16) k d))
      <$> dst !! k.
Proof.
  unfold neon_image, blend_image.
  rewrite lookup_blend_bytes, lookup_neon_groups_image.
  now destruct (dst !! k).
Qed.

Lemma neon_lane_bytes s a :
  is_byte s -> is_byte a -> neon_lane s a = Z.min (s * a) 255.
Proof.
  unfold is_byte, UINT8_MAX, neon_lane. intros Hs Ha.
  rewrite Z.mod_small; [reflexivity | nia].
Qed.

(** X15: for byte arrays that hold the pixels, [obs_blend_alpha_neon]
    returns, keeps the length, keeps a byte array a byte array and leaves
    the bytes from index [4 * count] on as they were. *)
Theorem obs_blend_alpha_neon_frame (dst src alpha : list Z) (count : Z) :
  is_buffer dst -> is_buffer src -> is_buffer alpha ->
  0 <= count ->
  4 * count <= Z.of_nat (length dst) ->
  4 * count <= Z.of_nat (length src) ->
  count <= Z.of_nat (length alpha) ->
  exists dst',
    obs_blend_alpha_neon dst src alpha count = Some dst' /\
    length dst' = length dst /\
    is_buffer dst' /\
    forall k : nat, 4 * count <= Z.of_nat k -> dst' !! k = dst !! k.
Proof.
  intros Hdst Hsrc Halpha Hcount Hd Hs Ha.
  exists (neon_image dst src alpha count).
  split; [now apply obs_blend_alpha_neon_image |].
  assert (HG : 0 <= 16 * (count / 16) <= count)
    by (Z.div_mod_to_equations; lia).
  split; [| split].
  - unfold neon_image, blend_image.
    now rewrite length_blend_bytes, length_neon_groups_image.
  - unfold neon_image. apply blend_image_is_buffer; trivial.
    + now apply neon_groups_image_is_buffer.
    + apply alpha_from_is_buffer; [lia | exact Halpha].
  - intros k Hk. rewrite lookup_neon_image.
    destruct (dst !! k) as [d |]; [| reflexivity]. simpl. f_equal.
    unfold blend_byte. rewrite bool_decide_eq_false_2 by lia.
    apply neon_byte_unchanged. lia.
Qed.

Lemma obs_blend_alpha_neon_frame_witness :
  exists dst',
    obs_blend_alpha_neon (replicate 70 9) (replicate 68 200)
      (replicate 17 2) 17 = Some dst' /\
    length dst' = length (replicate 70 9) /\
    is_buffer dst' /\
    forall k : nat, 4 * 17 <= Z.of_nat k -> dst' !! k = replicate 70 9 !! k.
Proof.
  apply (obs_blend_alpha_neon_frame (replicate 70 9) (replicate 68 200)
           (replicate 17 2) 17);
    compute_done.
Defined.

(** X16: the pixels after the last full group of 16 are blended by the
    formula of the scalar path, whatever [count]. *)
Theorem obs_blend_alpha_neon_remainder (dst src alpha : list Z) (count : Z) :
  is_buffer dst -> is_buffer src -> is_buffer alpha ->
  0 <= count ->
  4 * count <= Z.of_nat (length dst) ->
  4 * count <= Z.of_nat (length src) ->
  count <= Z.of_nat (length alpha) ->
  exists dst',
    obs_blend_alpha_neon dst src alpha count = Some dst' /\
    forall i c d s a,
      16 * (count / 16) <= i < count -> 0 <= c < 4 ->
      dst !! Z.to_nat (i * 4 + c) = Some d ->
      src !! Z.to_nat (i * 4 + c) = Some s ->
      alpha !! Z.to_nat i = Some a ->
      dst' !! Z.to_nat (i * 4 + c)
      = Some (Z.quot (d * (255 - a) + s * a) 255).
Proof.
  intros Hdst Hsrc Halpha Hcount Hd Hs Ha.
  exists (neon_image dst src alpha count).
  split; [now apply obs_blend_alpha_neon_image |].
  intros i c d s a Hi Hc Hdk Hsk Hai.
  assert (HG : 0 <= 16 * (count / 16)) by (Z.div_mod_to_equations; lia).
  rewrite lookup_neon_image, Hdk. simpl. f_equal.
  rewrite neon_byte_unchanged by lia.
  unfold blend_byte. rewrite bool_decide_eq_true_2 by lia. rewrite Hsk.
  assert (Hq : (Z.to_nat (i * 4 + c) / 4)%nat = Z.to_nat i).
  { symmetry. apply (Nat.div_unique _ 4 _ (Z.to_nat c)); lia. }
  rewrite Hq, lookup_alpha_from_ge, Hai by lia. reflexivity.
Qed.

Lemma obs_blend_alpha_neon_remainder_witness :
  exists dst',
    obs_blend_alpha_neon (replicate 70 9) (replicate 68 200)
      (replicate 17 2) 17 = Some dst' /\
    forall i c d s a,
      16 * (17 / 16) <= i < 17 -> 0 <= c < 4 ->
      replicate 70 9 !! Z.to_nat (i * 4 + c) = Some d ->
      replicate 68 200 !! Z.to_nat (i * 4 + c) = Some s ->
      replicate 17 2 !! Z.to_nat i = Some a ->
      dst' !! Z.to_nat (i * 4 + c)
      = Some (Z.quot (d * (255 - a) + s * a) 255).
Proof.
  apply (obs_blend_alpha_neon_remainder (replicate 70 9) (replicate 68 200)
           (replicate 17 2) 17);
    compute_done.
Defined.

(** X17: in every full group of 16 pixels (64 bytes) the 16-pixel loop
    stores only the first 16 bytes, each the saturated product of the source
    byte with the alpha of the first pixel of the group, and leaves the
    other 48 bytes of the group as they were. *)
Theorem obs_blend_alpha_neon_group_bytes (dst src alpha : list Z) (count : Z) :
  is_buffer dst -> is_buffer src -> is_buffer alpha ->
  0 <= count ->
  4 * count <= Z.of_nat (length dst) ->
  4 * count <= Z.of_nat (length src) ->
  count <= Z.of_nat (length alpha) ->
  exists dst',
    obs_blend_alpha_neon dst src alpha count = Some dst' /\
    forall (k : nat) d s a,
      Z.of_nat k < 64 * (count / 16) ->
      dst !! k = Some d -> src !! k = Some s ->
      alpha !! Z.to_nat (16 * (Z.of_nat k / 64)) = Some a ->
      dst' !! k
      = Some (if decide (Z.of_nat k mod 64 < 16) then Z.min (s * a) 255
              else d).
Proof.
  intros Hdst Hsrc Halpha Hcount Hd Hs Ha.
  exists (neon_image dst src alpha count).
  split; [now apply obs_blend_alpha_neon_image |].
  intros k d s a Hk Hdk Hsk Hak.
  rewrite lookup_neon_image, Hdk. simpl. f_equal.
  unfold blend_byte.
  rewrite bool_decide_eq_true_2 by (Z.div_mod_to_equations; lia).
  rewrite Hsk, lookup_alpha_from_lt, blend_expr_alpha_0.
  - destruct (decide (Z.of_nat k mod 64 < 16)) as [Hlow | Hhigh].
    + rewrite (neon_byte_stored src alpha _ k d s a); trivial.
      apply neon_lane_bytes;
        [exact (is_buffer_lookup _ _ _ Hsrc Hsk)
        | exact (is_buffer_lookup _ _ _ Halpha Hak)].
    + apply neon_byte_unchanged. lia.
  - assert (Z.of_nat (k / 4) = Z.of_nat k / 4) by apply Nat2Z.inj_div.
    Z.div_mod_to_equations. lia.
Qed.

Lemma obs_blend_alpha_neon_group_bytes_witness :
  exists dst',
    obs_blend_alpha_neon (replicate 70 9) (replicate 68 200)
      (replicate 17 2) 17 = Some dst' /\
    forall (k : nat) d s a,
      Z.of_nat k < 64 * (17 / 16) ->
      replicate 70 9 !! k = Some d -> replicate 68 200 !! k = Some s ->
      replicate 17 2 !! Z.to_nat (16 * (Z.of_nat k / 64)) = Some a ->
      dst' !! k
      = Some (if decide (Z.of_nat k mod 64 < 16) then Z.min (s * a) 255
              else d).
Proof.
  apply (obs_blend_alpha_neon_group_bytes (replicate 70 9) (replicate 68 200)
           (replicate 17 2) 17);
    compute_done.
Defined.

(** X18: for fewer than 16 pixels the vectorized function is the scalar
    one: the same result, also where an access leaves an array. *)
Theorem obs_blend_alpha_neon_below_group
  (dst src alpha : list Z) (count : Z) :
  count < 16 ->
  obs_blend_alpha_neon dst src alpha count
  = obs_blend_alpha_generic dst src alpha count.
Proof.
  intros Hc. unfold obs_blend_alpha_neon, obs_blend_alpha_generic.
  simp blend_neon_from.
  destruct (decide (usize (0 + 16) <= count)) as [Hle | Hgt].
  - exfalso. pose proof (usize_small (0 + 16)) as H16.
    unfold SIZE_MAX in H16. lia.
  - reflexivity.
Qed.

Lemma obs_blend_alpha_neon_below_group_witness :
  obs_blend_alpha_neon (replicate 60 9) (replicate 60 200) (replicate 15 2) 15
  = obs_blend_alpha_generic (replicate 60 9) (replicate 60 200)
      (replicate 15 2) 15.
Proof.
  apply (obs_blend_alpha_neon_below_group (replicate 60 9) (replicate 60 200)
           (replicate 15 2) 15).
  compute_done.
Defined.

(** ** Statistics counter, further *)

Lemma increments_app l1 l2 :
  increments (l1 ++ l2) = increments l1 ++ increments l2.
Proof. unfold increments. now rewrite fmap_app, join_app. Qed.

Lemma run_increments (deltas : list Z) :
  forall c,
    run c (increments deltas) = foldl obs_atomic_counter_increment c deltas.
Proof.
  induction deltas as [| d deltas IH]; intros c; [reflexivity |].
  rewrite increments_cons, run_app, IH. reflexivity.
Qed.

Lemma increment_fields c delta :
  value (obs_atomic_counter_increment c delta) = u64 (value c + delta) /\
  updates (obs_atomic_counter_increment c delta) = u64 (updates c + 1).
Proof. destruct c. split; reflexivity. Qed.

Lemma foldl_increment_fields (deltas : list Z) :
  forall c,
    0 <= value c <= UINT64_MAX -> 0 <= updates c <= UINT64_MAX ->
    value (foldl obs_atomic_counter_increment c deltas)
    = u64 (value c + sum_deltas deltas) /\
    updates (foldl obs_atomic_counter_increment c deltas)
    = u64 (updates c + Z.of_nat (length deltas)).
Proof.
  induction deltas as [| d deltas IH]; intros c Hv Hu.
  - unfold sum_deltas. simpl. rewrite !Z.add_0_r, !u64_small by lia.
    split; reflexivity.
  - destruct (increment_fields c d) as [Ev Eu].
    destruct (IH (obs_atomic_counter_increment c d)) as [IHv IHu].
    + rewrite Ev. apply u64_range.
    + rewrite Eu. apply u64_range.
    + simpl foldl. rewrite IHv, IHu, Ev, Eu, !u64_add_l.
      unfold sum_deltas. simpl. split; f_equal; lia.
Qed.

(** X19: after [obs_atomic_counter_init] and any sequence of calls of
    [obs_atomic_counter_increment], [obs_atomic_counter_get] is the sum of
    the deltas modulo [2^64] and [obs_atomic_counter_get_updates] the number
    of calls modulo [2^64]. *)
Theorem counter_after_increments
  (c0 : obs_atomic_counter_t) (deltas : list Z) :
  obs_atomic_counter_get
    (foldl obs_atomic_counter_increment (obs_atomic_counter_init c0) deltas)
  = u64 (sum_deltas deltas) /\
  obs_atomic_counter_get_updates
    (foldl obs_atomic_counter_increment (obs_atomic_counter_init c0) deltas)
  = u64 (Z.of_nat (length deltas)).
Proof.
  unfold obs_atomic_counter_get, obs_atomic_counter_get_updates.
  destruct (foldl_increment_fields deltas (obs_atomic_counter_init c0))
    as [Hv Hu]; try (simpl; unfold UINT64_MAX; lia).
  rewrite Hv, Hu. split; reflexivity.
Qed.

(** X20: the order of the calls does not matter: two sequences of
    increments with the same deltas in any order leave the same counter. *)
Theorem counter_increments_permutation
  (c : obs_atomic_counter_t) (l1 l2 : list Z) :
  l1 ≡ₚ l2 ->
  foldl obs_atomic_counter_increment c l1
  = foldl obs_atomic_counter_increment c l2.
Proof.
  intros Hperm. revert c.
  induction Hperm as [| x l1 l2 _ IH | x y l | l1 l2 l3 _ IH1 _ IH2];
    intros c.
  - reflexivity.
  - simpl. apply IH.
  - simpl. f_equal. destruct c as [v u].
    unfold obs_atomic_counter_increment, run. simpl. f_equal.
    rewrite !u64_add_l. f_equal. lia.
  - now rewrite IH1.
Qed.

Lemma counter_increments_permutation_witness :
  foldl obs_atomic_counter_increment (Build_counter 3 4) [1; 2; 5]
  = foldl obs_atomic_counter_increment (Build_counter 3 4) [5; 1; 2].
Proof.
  apply (counter_increments_permutation (Build_counter 3 4) [1; 2; 5]
           [5; 1; 2]).
  compute_done.
Defined.

Lemma join_increments (dss : list (list Z)) :
  mjoin (increments <$> dss) = increments (mjoin dss).
Proof.
  induction dss as [| ds dss IH]; [reflexivity |].
  rewrite fmap_cons.
  change (mjoin (increments ds :: (increments <$> dss)))
    with (increments ds ++ mjoin (increments <$> dss)).
  change (mjoin (ds :: dss)) with (ds ++ mjoin dss).
  now rewrite IH, increments_app.
Qed.

(** X21: threads that each make any sequence of increments with [uint64_t]
    deltas: whatever the interleaving, once all threads are done
    [obs_atomic_counter_get] is the sum of all deltas modulo [2^64] and
    [obs_atomic_counter_get_updates] the number of all calls modulo [2^64];
    and the threads can always be run to the end. *)
Theorem counter_concurrent_sum
  (dss : list (list Z)) (c0 : obs_atomic_counter_t) :
  Forall (Forall (fun d => 0 <= d <= UINT64_MAX)) dss ->
  (exists c p,
      rtc step (obs_atomic_counter_init c0, increments <$> dss) (c, p)
      /\ finished p) /\
  (forall c p,
      rtc step (obs_atomic_counter_init c0, increments <$> dss) (c, p) ->
      finished p ->
      obs_atomic_counter_get c = u64 (sum_deltas (mjoin dss)) /\
      obs_atomic_counter_get_updates c
      = u64 (Z.of_nat (length (mjoin dss)))).
Proof.
  intros Hdss. split; [exact (runs_to_end _ _ _ eq_refl) |].
  intros c p Hrtc Hfin.
  assert (Hinv : conserved (obs_atomic_counter_init c0) (increments <$> dss)
                   (c, p)).
  { apply rtc_conserved; [| | exact Hrtc].
    - unfold adds_only. apply Forall_fmap.
      eapply Forall_impl; [exact Hdss |].
      intros ds Hds. now apply increments_are_adds.
    - intros f. rewrite init_fields. unfold UINT64_MAX. lia. }
  destruct Hinv as [_ Hf].
  assert (Hget : forall f,
             get_field f c = u64 (pending f (increments <$> dss))).
  { intros f. destruct (Hf f) as [Hrange Hsum]. simpl in Hrange, Hsum.
    unfold pending in Hsum at 1. rewrite (join_nil_2 p Hfin) in Hsum.
    rewrite init_fields in Hsum. change (added f []) with 0 in Hsum.
    rewrite Z.add_0_r, Z.add_0_l in Hsum.
    rewrite u64_small in Hsum by lia. exact Hsum. }
  destruct (added_increments (mjoin dss)) as [Hv Hu].
  unfold obs_atomic_counter_get, obs_atomic_counter_get_updates. split.
  - rewrite <- Hv, <- join_increments. exact (Hget Value).
  - rewrite <- Hu, <- join_increments. exact (Hget Updates).
Qed.

Lemma counter_concurrent_sum_witness :
  (exists c p,
      rtc step (obs_atomic_counter_init (Build_counter 7 9),
                increments <$> [[1; 2]; [UINT64_MAX]; []]) (c, p)
      /\ finished p) /\
  (forall c p,
      rtc step (obs_atomic_counter_init (Build_counter 7 9),
                increments <$> [[1; 2]; [UINT64_MAX]; []]) (c, p) ->
      finished p ->
      obs_atomic_counter_get c
      = u64 (sum_deltas (mjoin [[1; 2]; [UINT64_MAX]; []])) /\
      obs_atomic_counter_get_updates c
      = u64 (Z.of_nat (length (mjoin [[1; 2]; [UINT64_MAX]; []])))).
Proof.
  apply (counter_concurrent_sum [[1; 2]; [UINT64_MAX]; []]
           (Build_counter 7 9)).
  compute_done.
Defined.

(** *** The skew between the two fields *)

Lemma pending_cons f (t : list atomic_op) (p : pool) :
  pending f (t :: p) = added f t + pending f p.
Proof. unfold pending. simpl. apply added_app. Qed.

Lemma added_cons f op ops : added f (op :: ops) = added_by f op + added f ops.
Proof. reflexivity. Qed.

Lemma thread_shape_added (t : list atomic_op) :
  thread_shape t ->
  0 <= added Value t /\
  added Value t <= added Updates t <= added Value t + 1.
Proof.
  intros (k & [-> | ->]); rewrite ?added_cons, !increment_thread_added;
    simpl; lia.
Qed.

Lemma pool_shape_pending (p : pool) :
  Forall thread_shape p ->
  0 <= pending Value p /\
  pending Value p <= pending Updates p
  <= pending Value p + Z.of_nat (length p).
Proof.
  induction 1 as [| t p Ht _ IH].
  - unfold pending, added. simpl. lia.
  - rewrite !pending_cons. apply thread_shape_added in Ht. simpl length. lia.
Qed.

(** The next operation of a thread of that shape, and what is left. *)
Lemma thread_shape_head (op : atomic_op) (rest : list atomic_op) :
  thread_shape (op :: rest) ->
  thread_shape rest /\
  (op = atomic_fetch_add Value 1 \/ op = atomic_fetch_add Updates 1).
Proof.
  intros (k & [Hk | Hk]).
  - destruct k as [| k]; [discriminate |].
    change (increment_thread (S k))
      with (atomic_fetch_add Value 1 :: atomic_fetch_add Updates 1
              :: increment_thread k) in Hk.
    injection Hk as -> ->. split; [| now left]. exists k. now right.
  - injection Hk as -> ->. split; [| now right]. exists k. now left.
Qed.

Lemma step_in_step (T : nat) (total : Z) s s' :
  total <= UINT64_MAX -> step s s' -> in_step T total s -> in_step T total s'.
Proof.
  intros Hmax Hstep (Hlen & Hshape & Hv0 & Hu0 & Hv & Hu).
  destruct Hstep as [c before op rest after]. simpl in *.
  apply Forall_app in Hshape as [Hb Hrest].
  apply Forall_cons in Hrest as [Ht Ha].
  apply thread_shape_head in Ht as [Hrest' Hop].
  rewrite pending_split, added_cons in Hv, Hu.
  pose proof (pool_shape_pending before Hb) as Pb.
  pose proof (pool_shape_pending after Ha) as Pa.
  pose proof (thread_shape_added rest Hrest') as Pr.
  assert (Hlen' : length (before ++ rest :: after)
                  = length (before ++ (op :: rest) :: after))
    by (rewrite !length_app; reflexivity).
  assert (Hshape' : Forall thread_shape (before ++ rest :: after))
    by (apply Forall_app; split; [exact Hb | now constructor]).
  unfold in_step. simpl. rewrite !pending_split.
  destruct c as [v u]. simpl in *.
  destruct Hop as [-> | ->]; simpl in *.
  - rewrite u64_small by lia. repeat split; trivial; lia.
  - rewrite u64_small by lia. repeat split; trivial; lia.
Qed.

(** X22: [T] threads that increment by 1: in every state an execution
    goes through, [updates] is never ahead of [value], and [value] is ahead
    by at most the number of threads (those inside a call). *)
Theorem counter_skew (T K : nat) (c0 c : obs_atomic_counter_t) (p : pool) :
  Z.of_nat (T * K) <= UINT64_MAX ->
  rtc step (obs_atomic_counter_init c0, replicate T (increment_thread K))
    (c, p) ->
  obs_atomic_counter_get_updates c <= obs_atomic_counter_get c
  <= obs_atomic_counter_get_updates c + Z.of_nat T.
Proof.
  intros Hmax Hrtc.
  assert (Hinv : in_step T (Z.of_nat (T * K)) (c, p)).
  { revert Hrtc. generalize (c, p). apply rtc_ind_r.
    - unfold in_step. simpl. rewrite length_replicate, !threads_pending.
      repeat split; try lia.
      apply Forall_replicate. exists K. now left.
    - intros s s' _ Hstep IH. exact (step_in_step _ _ s s' Hmax Hstep IH). }
  destruct Hinv as (Hlen & Hshape & _ & _ & Hv & Hu). simpl in *.
  pose proof (pool_shape_pending p Hshape) as Hp.
  unfold obs_atomic_counter_get, obs_atomic_counter_get_updates. lia.
Qed.

Lemma counter_skew_witness :
  obs_atomic_counter_get_updates
    (exec (obs_atomic_counter_init (Build_counter 7 9))
       (atomic_fetch_add Value 1))
  <= obs_atomic_counter_get
       (exec (obs_atomic_counter_init (Build_counter 7 9))
          (atomic_fetch_add Value 1))
  <= obs_atomic_counter_get_updates
       (exec (obs_atomic_counter_init (Build_counter 7 9))
          (atomic_fetch_add Value 1)) + Z.of_nat 2.
Proof.
  apply (counter_skew 2 1 (Build_counter 7 9) _
           ([] ++ [atomic_fetch_add Updates 1] :: [increment_thread 1])).
  - compute_done.
  - apply rtc_once.
    exact (step_thread (obs_atomic_counter_init (Build_counter 7 9)) []
             (atomic_fetch_add Value 1) [atomic_fetch_add Updates 1]
             [increment_thread 1]).
Defined.

(** ** [obs_aligned_alloc], further *)

(** X23: with the [posix_memalign] of POSIX, an alignment that is not a
    multiple of [sizeof(void * )] gives NULL, also when it is a power of two
    (1, 2 or 4). *)
Theorem obs_aligned_alloc_small_alignment
  (heap : Type) (A : Allocator heap) (P : PosixAllocator heap)
  (h : heap) (alignment size : Z) :
  alignment mod SIZEOF_VOID_P <> 0 ->
  (obs_aligned_alloc h alignment size).1 = NULL.
Proof.
  intros Hsmall. apply obs_aligned_alloc_bad_alignment.
  intros [_ Hmul]. exact (Hsmall Hmul).
Qed.

Lemma obs_aligned_alloc_small_alignment_witness :
  (obs_aligned_alloc bump_heap0 4 100).1 = NULL.
Proof.
  apply (obs_aligned_alloc_small_alignment bump_heap bump_allocator
           bump_posix bump_heap0 4 100).
  compute_done.
Defined.

(** ** The scalar blend on uniform alpha planes *)

(** X24: with alpha 0 on all [count] pixels the scalar blend leaves the
    destination as it was. *)
Theorem obs_blend_alpha_generic_transparent
  (dst src alpha : list Z) (count : Z) :
  is_buffer dst -> is_buffer src -> is_buffer alpha ->
  0 <= count ->
  4 * count <= Z.of_nat (length dst) ->
  4 * count <= Z.of_nat (length src) ->
  count <= Z.of_nat (length alpha) ->
  (forall (i : nat) a, Z.of_nat i < count -> alpha !! i = Some a -> a = 0) ->
  obs_blend_alpha_generic dst src alpha count = Some dst.
Proof.
  intros Hdst Hsrc Halpha Hcount Hd Hs Ha Hzero.
  rewrite obs_blend_alpha_generic_image by trivial. f_equal.
  apply list_eq. intros k. unfold blend_image. rewrite lookup_blend_bytes.
  destruct (dst !! k) as [d |]; [| reflexivity]. simpl. f_equal.
  unfold blend_byte.
  destruct (bool_decide_reflect (Z.of_nat k < 4 * count)) as [Hk |];
    [| reflexivity].
  destruct (src !! k) as [s |]; [| reflexivity].
  destruct (alpha !! (k / 4)%nat) as [a |] eqn:Hak; [| reflexivity].
  rewrite (Hzero (k / 4)%nat a); [apply blend_expr_alpha_0 | | exact Hak].
  assert (Z.of_nat (k / 4) = Z.of_nat k / 4) by apply Nat2Z.inj_div.
  Z.div_mod_to_equations. lia.
Qed.

Lemma obs_blend_alpha_generic_transparent_witness :
  obs_blend_alpha_generic [10; 20; 30; 40; 1; 2; 3; 4]
    [255; 0; 255; 0; 9; 8; 7; 6] [0; 0; 77] 2
  = Some [10; 20; 30; 40; 1; 2; 3; 4].
Proof.
  apply (obs_blend_alpha_generic_transparent [10; 20; 30; 40; 1; 2; 3; 4]
           [255; 0; 255; 0; 9; 8; 7; 6] [0; 0; 77] 2); try compute_done.
  intros [| [| i]] a Hi Ha; simpl in *; [congruence | congruence | lia].
Defined.

(** X25: with alpha 255 on all [count] pixels the scalar blend is the copy
    of the [4 * count] pixel bytes: it gives what [obs_memcpy_neon] gives. *)
Theorem obs_blend_alpha_generic_opaque_is_copy
  (dst src alpha : list Z) (count : Z) :
  is_buffer dst -> is_buffer src -> is_buffer alpha ->
  0 <= count ->
  4 * count <= Z.of_nat (length dst) ->
  4 * count <= Z.of_nat (length src) ->
  count <= Z.of_nat (length alpha) ->
  (forall (i : nat) a, Z.of_nat i < count -> alpha !! i = Some a -> a = 255) ->
  obs_blend_alpha_generic dst src alpha count
  = obs_memcpy_neon dst src (4 * count).
Proof.
  intros Hdst Hsrc Halpha Hcount Hd Hs Ha Hfull.
  rewrite obs_blend_alpha_generic_image by trivial.
  rewrite obs_memcpy_neon_closed by lia. f_equal.
  assert (Hlen : length (take (Z.to_nat (4 * count)) src)
                 = Z.to_nat (4 * count)) by (apply length_take_le; lia).
  apply list_eq. intros k. unfold blend_image. rewrite lookup_blend_bytes.
  destruct (decide (Z.of_nat k < 4 * count)) as [Hk | Hk].
  - rewrite lookup_app_l, lookup_take_lt by lia.
    destruct (lookup_lt_is_Some_2 dst k) as [d Hdk]; [lia |].
    destruct (lookup_lt_is_Some_2 src k) as [s Hsk]; [lia |].
    assert (Hq : Z.of_nat (k / 4) < count).
    { assert (Z.of_nat (k / 4) = Z.of_nat k / 4) by apply Nat2Z.inj_div.
      Z.div_mod_to_equations. lia. }
    destruct (lookup_lt_is_Some_2 alpha (k / 4)%nat) as [a Hak]; [lia |].
    rewrite Hdk, Hsk. simpl. f_equal. unfold blend_byte.
    rewrite bool_decide_eq_true_2 by exact Hk. rewrite Hsk, Hak.
    rewrite (Hfull (k / 4)%nat a Hq Hak). apply blend_expr_alpha_255.
  - rewrite lookup_app_r, lookup_drop, Hlen by lia.
    replace (Z.to_nat (4 * count) + (k - Z.to_nat (4 * count)))%nat
      with k by lia.
    destruct (dst !! k) as [d |]; [| reflexivity]. simpl. f_equal.
    unfold blend_byte. now rewrite bool_decide_eq_false_2 by exact Hk.
Qed.

Lemma obs_blend_alpha_generic_opaque_is_copy_witness :
  obs_blend_alpha_generic [10; 20; 30; 40; 1; 2; 3; 4; 5]
    [255; 0; 255; 0; 9; 8; 7; 6] [255; 255; 77] 2
  = obs_memcpy_neon [10; 20; 30; 40; 1; 2; 3; 4; 5]
      [255; 0; 255; 0; 9; 8; 7; 6] (4 * 2).
Proof.
  apply (obs_blend_alpha_generic_opaque_is_copy
           [10; 20; 30; 40; 1; 2; 3; 4; 5]
           [255; 0; 255; 0; 9; 8; 7; 6] [255; 255; 77] 2); try compute_done.
  intros [| [| i]] a Hi Ha; simpl in *; [congruence | congruence | lia].
Defined.
